(** * The post pipeline of [app/posts.ts]: [getPosts] and [generateFeed]

    The blog keeps one directory per post under [./public/]; [getPosts] lists
    the directories, reads [index.md] of each, parses the front matter with
    gray-matter, spreads it over a record that starts with the directory name
    as [slug], and sorts the records with [Array.prototype.sort].
    [generateFeed] turns the sorted records into the items of a [Feed].

    What the program takes from its platform is kept apart from what it does
    itself: the JavaScript engine ([Date.parse], [Array.prototype.sort]) and
    the two libraries ([gray-matter], [feed]) are modelled in [Module JS] and
    as the two variables of [Posts.Platform]; the file system is the input.

    The readers of the posts follow (the image of a post, the home page),
    and the stand-ins and the class of the demos of one post
    ([components.js]): [RegExp.escape], [Resource], [Array.fromAsync]. *)

From Stdlib Require Import ZArith String Ascii DecimalString.
From stdpp Require Import base gmap strings list sorting.

Local Open Scope string_scope.
Local Open Scope list_scope.
Local Open Scope Z_scope.

(** ** The engine: numbers, promises, objects, [Array.prototype.sort] *)

Module JS.

(** A JavaScript number as far as this program meets one: [Date.parse] and
    the time value of a [Date] are either [NaN] or an integral number of
    milliseconds since the epoch. *)
Inductive number : Type :=
  | NaN
  | Num (ms : Z).

#[export] Instance number_eq_dec : EqDecision number.
Proof. solve_decision. Defined.

(** [x < y] on numbers: every comparison with [NaN] is false. *)
Definition lt (x y : number) : bool :=
  match x, y with
  | Num a, Num b => a <? b
  | _, _ => false
  end.

(** [x >= y] on numbers, as a proposition; false as soon as one is [NaN]. *)
Definition ge (x y : number) : Prop :=
  match x, y with
  | Num a, Num b => b ≤ a
  | _, _ => False
  end.

(** What a rejected promise (or a throw inside an async function) carries. *)
Inductive rejection : Type :=
  | ENOENT (path : string)
  | YAMLException (fileContent : string)
  | TypeError (message : string).

(** The state in which an awaited promise is found. *)
Inductive promise (A : Type) : Type :=
  | Resolved (value : A)
  | Rejected (reason : rejection).
Arguments Resolved {A} value.
Arguments Rejected {A} reason.

Definition await {A B : Type} (p : promise A) (k : A → promise B) : promise B :=
  match p with
  | Resolved a => k a
  | Rejected e => Rejected e
  end.

Notation "'let!' x ':=' p 'in' k" := (await p (fun x => k))
  (at level 10, x pattern, p at level 100, k at level 200).

(** [Promise.all]: resolved with every value, in the order of the array,
    when every promise resolves; rejected as soon as one is. Which rejection
    wins when several promises reject is a matter of timing; the model
    reports the first one of the array. *)
Fixpoint Promise_all {A : Type} (ps : list (promise A)) : promise (list A) :=
  match ps with
  | [] => Resolved []
  | p :: ps' =>
      let! a := p in
      let! rest := Promise_all ps' in
      Resolved (a :: rest)
  end.

(** A plain object whose property values are strings, as the [Post]
    interface declares them; a property that is absent reads [undefined],
    which is [None] here. *)
Abbreviation object := (gmap string string).

(** [{ ...target, ...source }]: the own properties of [source] are copied
    over those of [target]. *)
Definition spread (target source : object) : object := source ∪ target.

(** [`${v}`]: a string is itself, [undefined] prints as its name. *)
Definition ToString (v : option string) : string :=
  match v with
  | Some s => s
  | None => "undefined"
  end.

(** *** [Array.prototype.sort]

    The comparator of [getPosts] never answers 0, not even for a post and
    itself, so it is no consistent comparator in the sense of ECMAScript and
    the order of the result is the implementation's. Node's engine sorts
    with TimSort; an array of fewer than 64 elements is one run:
    [CountAndMakeRun] finds the run the array starts with (and reverses it
    when it is descending), and [BinaryInsertionSort] inserts the remaining
    elements one by one. That path is modelled here, for arrays of any
    length (a longer array is cut in several such runs, which are then
    merged). The comparator is only ever asked whether [order < 0]. *)
Section ArraySort.
Context {A : Type} (comparefn : A → A → Z).

(** How many more elements the run that ends in [previous] takes from
    [rest]: a descending run goes on while [order < 0], an ascending one
    while [order >= 0]. *)
Fixpoint run_tail (isDescending : bool) (previous : A) (rest : list A) : nat :=
  match rest with
  | [] => 0%nat
  | current :: rest' =>
      let order := comparefn current previous in
      if (if isDescending then 0 <=? order else order <? 0) then 0%nat
      else S (run_tail isDescending current rest')
  end.

(** The array after the first run was made ascending, and the length of
    that run. *)
Definition CountAndMakeRun (workArray : list A) : list A * nat :=
  match workArray with
  | elementHigh :: elementLow :: rest =>
      let order := comparefn elementLow elementHigh in
      let isDescending := order <? 0 in
      let runLength := (2 + run_tail isDescending elementLow rest)%nat in
      (if isDescending
       then reverse (take runLength workArray) ++ drop runLength workArray
       else workArray,
       runLength)
  | _ => (workArray, 1%nat)
  end.

(** The loop [while (left < right)] of [BinaryInsertionSort]; every turn
    makes [right - left] smaller, so [fuel >= right - left] turns are
    enough. *)
Fixpoint binary_search (fuel : nat) (sorted : list A) (pivot : A)
    (left right : nat) : nat :=
  match fuel with
  | O => left
  | S fuel' =>
      if decide (left < right)%nat then
        let mid := (left + (right - left) / 2)%nat in
        match sorted !! mid with
        | Some element =>
            let order := comparefn pivot element in
            if order <? 0
            then binary_search fuel' sorted pivot left mid
            else binary_search fuel' sorted pivot (S mid) right
        | None => left
        end
      else left
  end.

(** One turn of the outer loop: [sorted] is [workArray[0..start)], the
    pivot is [workArray[start]]; the elements from [left] on move up by one
    and the pivot lands at [left]. *)
Definition insert_pivot (sorted : list A) (pivot : A) : list A :=
  let left := binary_search (length sorted) sorted pivot 0 (length sorted) in
  take left sorted ++ pivot :: drop left sorted.

Definition BinaryInsertionSort (workArray : list A) (start : nat) : list A :=
  foldl insert_pivot (take start workArray) (drop start workArray).

Definition sort (array : list A) : list A :=
  if decide (length array < 2)%nat then array
  else
    let '(workArray, runLength) := CountAndMakeRun array in
    BinaryInsertionSort workArray runLength.
End ArraySort.

(** What it means for the result to be sorted. The one question the sort
    asks is [order < 0]: the first argument goes before the second. On the
    elements that satisfy [P] the answers are those of a total preorder. *)
Section Order.
Context {A : Type} (comparefn : A → A → Z) (P : A → Prop).

Definition before (x y : A) : Prop := comparefn x y < 0.

Definition ordered (x y : A) : Prop := P x ∧ P y ∧ before x y.

(** The relation between neighbours of the run [CountAndMakeRun] counts. *)
Definition run_step (isDescending : bool) (previous current : A) : Prop :=
  if isDescending then ordered current previous else ordered previous current.
End Order.

End JS.

Notation "'let!' x ':=' p 'in' k" := (JS.await p (fun x => k))
  (at level 10, x pattern, p at level 100, k at level 200).

(** ** The file system, as [node:fs/promises] shows it *)

Module Dirent.
Record t : Type := { name : string; isDirectory : bool }.
End Dirent.

Record FileSystem : Type := {
  readdir : string → JS.promise (list Dirent.t);
  readFile : string → JS.promise string;
}.

(** ** The [feed] library: a [Feed] keeps its options and the items added *)

Module Author.
Record t : Type := { name : string; email : string; link : string }.
End Author.

Module FeedLinks.
Record t : Type := { atom : string; rss : string }.
End FeedLinks.

Module FeedOptions.
Record t : Type := {
  author : Author.t;
  description : string;
  favicon : string;
  feedLinks : FeedLinks.t;
  generator : string;
  id : string;
  image : string;
  link : string;
  title : string;
}.
End FeedOptions.

Module Item.
Record t : Type := {
  date : JS.number;
  description : option string;
  id : string;
  link : string;
  title : option string;
}.
End Item.

Module Feed.
Record t : Type := { options : FeedOptions.t; items : list Item.t }.

(** [new Feed(options)] *)
Definition new (options : FeedOptions.t) : t :=
  {| options := options; items := [] |}.

(** [feed.addItem(item)] pushes the item at the end of [items]. *)
Definition addItem (feed : t) (item : Item.t) : t :=
  {| options := options feed; items := items feed ++ [item] |}.
End Feed.

(** ** [app/posts.ts] *)

Module Posts.

Module Metadata.
Record t : Type := {
  title : string;
  description : string;
  openGraph_title : string;
  alternates_types : gmap string string;
}.
End Metadata.

Definition metadata : Metadata.t :=
  {| Metadata.title := "refactored — A blog by Sulhadin Öney";
     Metadata.description := "A blog by Sulhadin Öney";
     Metadata.openGraph_title := "refactored";
     Metadata.alternates_types :=
       {[ "application/atom+xml" := "https://sulhadin.com/atom.xml";
          "application/rss+xml" := "https://sulhadin.com/rss.xml" ]} |}.

Section Platform.
(** [Date.parse] on a string: which strings parse, beyond the ISO format,
    is the engine's choice, so it stays a variable. *)
Variable Date_parse : string → JS.number.
(** [matter(fileContent).data], [None] when gray-matter throws. *)
Variable matter : string → option JS.object.

(** [Date.parse(v)] and the time value of [new Date(v)] for a property
    value [v]: the string is parsed, [undefined] gives [NaN]. *)
Definition Date_parse_value (v : option string) : JS.number :=
  match v with
  | Some s => Date_parse s
  | None => JS.NaN
  end.

(** [`./public/${dir}/index.md`] *)
Definition index_md (dir : string) : string :=
  "./public/" +:+ dir +:+ "/index.md".

(** [dirs.map((slug, i) => ...)], where the callback may throw: the first
    throw ends the loop. *)
Fixpoint map_indexed {A B : Type} (callback : A → nat → JS.promise B)
    (i : nat) (array : list A) : JS.promise (list B) :=
  match array with
  | [] => JS.Resolved []
  | x :: array' =>
      let! y := callback x i in
      let! ys := map_indexed callback (S i) array' in
      JS.Resolved (y :: ys)
  end.

(** The callback of [dirs.map] in [getPosts]. *)
Definition make_post (fileContents : list string) (slug : string) (i : nat)
    : JS.promise JS.object :=
  match fileContents !! i with
  | Some fileContent =>
      match matter fileContent with
      | Some data => JS.Resolved (JS.spread {[ "slug" := slug ]} data)
      | None => JS.Rejected (JS.YAMLException fileContent)
      end
  | None => JS.Rejected (JS.TypeError "expected input to be a string or buffer")
  end.

(** [post] is the record [getPosts] builds for the directory [dir]: the
    front matter of its [index.md] spread over [{ slug: dir }]. *)
Definition post_of_directory (fs : FileSystem) (dir : string)
    (post : JS.object) : Prop :=
  ∃ fileContent data,
    readFile fs (index_md dir) = JS.Resolved fileContent ∧
    matter fileContent = Some data ∧
    post = JS.spread {[ "slug" := dir ]} data.

(** The date a post is ordered by, [Date.parse(post.date)], and whether it
    is one. *)
Definition parsed_date (post : JS.object) : JS.number :=
  Date_parse_value (post !! "date").

Definition parseable (post : JS.object) : Prop := parsed_date post ≠ JS.NaN.

(** The comparator given to [posts.sort]. *)
Definition compare (a b : JS.object) : Z :=
  if JS.lt (Date_parse_value (a !! "date")) (Date_parse_value (b !! "date"))
  then 1 else -1.

(** The directories of [./public/], in the order [readdir] lists them. *)
Definition directories (entries : list Dirent.t) : list string :=
  Dirent.name <$> filter (λ entry, Dirent.isDirectory entry = true) entries.

Definition getPosts (fs : FileSystem) : JS.promise (list JS.object) :=
  let! entries := readdir fs "./public/" in
  let dirs := directories entries in
  let! fileContents :=
    JS.Promise_all ((λ dir, readFile fs (index_md dir)) <$> dirs) in
  let! posts := map_indexed (make_post fileContents) 0 dirs in
  JS.Resolved (JS.sort compare posts).

Definition site_url : string := "https://sulhadin.com/".

Definition feedOptions : FeedOptions.t :=
  {| FeedOptions.author :=
       {| Author.name := "Sulhadin Öney";
          Author.email := "sulhadin@gmail.com";
          Author.link := site_url |};
     FeedOptions.description := Metadata.description metadata;
     FeedOptions.favicon := site_url +:+ "/icon.png";
     FeedOptions.feedLinks :=
       {| FeedLinks.atom := site_url +:+ "atom.xml";
          FeedLinks.rss := site_url +:+ "rss.xml" |};
     FeedOptions.generator := "Feed for Node.js";
     FeedOptions.id := site_url;
     FeedOptions.image := "https://github.com/sulhadin.png";
     FeedOptions.link := site_url;
     FeedOptions.title := Metadata.title metadata |}.

(** The item the loop of [generateFeed] adds for one post. *)
Definition item_of (post : JS.object) : Item.t :=
  {| Item.date := Date_parse_value (post !! "date");
     Item.description := post !! "spoiler";
     Item.id := site_url +:+ JS.ToString (post !! "slug") +:+ "/";
     Item.link := site_url +:+ JS.ToString (post !! "slug") +:+ "/";
     Item.title := post !! "title" |}.

(** [for (const post of posts) feed.addItem({...})] *)
Definition add_posts (feed : Feed.t) (posts : list JS.object) : Feed.t :=
  foldl (λ feed post, Feed.addItem feed (item_of post)) feed posts.

Definition generateFeed (fs : FileSystem) : JS.promise Feed.t :=
  let! posts := getPosts fs in
  let feed := Feed.new feedOptions in
  JS.Resolved (add_posts feed posts).
End Platform.

End Posts.

(** ** The image of a post: [app/[slug]/opengraph-image.tsx] *)

Module OgImage.

Section Platform.
(** [matter(file).data], [None] when gray-matter throws. *)
Variable matter : string → option JS.object.
(** What [generatePostImage] of [og/generateImage] returns, and the function
    itself, given the [title] of the object it is called with. *)
Variable ImageResponse : Type.
Variable generatePostImage : option string → JS.promise ImageResponse.

(** [`./public/${slug}/index.md`] *)
Definition filename (slug : string) : string :=
  "./public/" +:+ slug +:+ "/index.md".

(** [Image({ params })], for [params] that resolve to [{ slug }]. *)
Definition Image (fs : FileSystem) (slug : string) : JS.promise ImageResponse :=
  let! file := readFile fs (filename slug) in
  match matter file with
  | Some data => generatePostImage (data !! "title")
  | None => JS.Rejected (JS.YAMLException file)
  end.
End Platform.

End OgImage.

(** ** The home page: [app/page.tsx] *)

Module Home.

(** What one [Link] of the list carries: its [key], its [href], and the
    texts of [PostTitle], [PostMeta] and [PostSubtitle]. The class names are
    constants; the colour of the title is computed from the clock in
    floating point by colorjs.io and is left out. *)
Record PostLink : Type := {
  key : option string;
  href : string;
  PostTitle : option string;
  PostMeta : string;
  PostSubtitle : option string;
}.

Section Platform.
Variable Date_parse : string → JS.number.
Variable matter : string → option JS.object.
(** [date.toLocaleDateString('en', { day: 'numeric', month: 'long',
    year: 'numeric' })] for the date of the given time value. *)
Variable toLocaleDateString : JS.number → string.

(** The callback of [posts.map] in [Home]. *)
Definition link_of (post : JS.object) : PostLink :=
  {| key := post !! "slug";
     href := "/" +:+ JS.ToString (post !! "slug") +:+ "/";
     PostTitle := post !! "title";
     PostMeta :=
       toLocaleDateString (Posts.Date_parse_value Date_parse (post !! "date"));
     PostSubtitle := post !! "spoiler" |}.

Definition Home (fs : FileSystem) : JS.promise (list PostLink) :=
  let! posts := Posts.getPosts Date_parse matter fs in
  JS.Resolved (link_of <$> posts).
End Platform.

End Home.

(** ** The demos of a post: [tc39-proposals-2025-how-they-work/components.js] *)

Module Components.

(** *** [RegExpEscapeDemo]: the stand-in for [RegExp.escape]

    A string is read character by character; the characters the patterns
    look for are ASCII, so the bytes of a character outside ASCII are never
    taken for one of them. *)

(** [string.replace(/c/g, replacement)] for a pattern that matches one
    character: every match is replaced, what is between stays. *)
Fixpoint replace (pattern : ascii → bool) (replacement : ascii → string)
    (str : string) : string :=
  match str with
  | EmptyString => EmptyString
  | String c rest =>
      if pattern c then replacement c +:+ replace pattern replacement rest
      else String c (replace pattern replacement rest)
  end.

(** The class [[\\^$.*+?()[\]{}|]]. *)
Definition syntax_characters : list ascii :=
  ["\"; "^"; "$"; "."; "*"; "+"; "?"; "("; ")"; "["; "]"; "{"; "}"; "|"]%char.

Definition line_feed : ascii := "010"%char.
Definition carriage_return : ascii := "013"%char.

Definition RegExp_escape (str : string) : string :=
  replace (λ c, bool_decide (c = "/"%char)) (λ _, "\/")
    (replace (λ c, bool_decide (c = carriage_return)) (λ _, "\r")
       (replace (λ c, bool_decide (c = line_feed)) (λ _, "\n")
          (replace (λ c, bool_decide (c ∈ syntax_characters))
             (λ c, String "\" (String c EmptyString)) str))).

(** The characters [RegExp.escape] does not leave as they are, and what
    becomes of one character. *)
Definition escaped (c : ascii) : bool :=
  bool_decide (c ∈ syntax_characters) || bool_decide (c = line_feed)
  || bool_decide (c = carriage_return) || bool_decide (c = "/"%char).

Definition escape_character (c : ascii) : string :=
  if bool_decide (c ∈ syntax_characters) then String "\" (String c EmptyString)
  else if bool_decide (c = line_feed) then "\n"
  else if bool_decide (c = carriage_return) then "\r"
  else if bool_decide (c = "/"%char) then "\/"
  else String c EmptyString.

(** How many characters of a string are escaped. *)
Fixpoint count_escaped (str : string) : nat :=
  match str with
  | EmptyString => 0%nat
  | String c rest => ((if escaped c then 1 else 0) + count_escaped rest)%nat
  end.

(** *** [UsingDeclarationsDemo]: the class [Resource]

    The state the class works on: the objects created so far, each known by
    its place in [objects]; the log of the component, to which [addLog]
    appends; and how often the clock was read and the log written, which
    is what the two variables of the platform are asked with. *)

Module Using.

Record LogEntry : Type := { time : string; message : string; type : string }.

Record Resource : Type := {
  name : string;
  dependsOn : option string;
  timestamp : Z;
  disposed : bool;
}.

Record World : Type := {
  objects : list Resource;
  logs : list LogEntry;
  clock_reads : nat;
  log_writes : nat;
}.

(** How a call ends: with a value, or with [throw new Error(message)]. *)
Inductive completion (A : Type) : Type :=
  | Normal (value : A)
  | Throw (message : string).
Arguments Normal {A} value.
Arguments Throw {A} message.

Definition M (A : Type) : Type := World → completion A * World.

Definition ret {A : Type} (a : A) : M A := λ w, (Normal a, w).

Definition bind {A B : Type} (m : M A) (k : A → M B) : M B :=
  λ w, match m w with
       | (Normal a, w') => k a w'
       | (Throw message, w') => (Throw message, w')
       end.

Definition throw {A : Type} (message : string) : M A := λ w, (Throw message, w).

Notation "'let*' x ':=' m 'in' k" := (bind m (fun x => k))
  (at level 10, x pattern, m at level 100, k at level 200).

(** The prefixes of the three messages, as the file has them. *)
Definition acquired_mark : string := "‚úÖ".
Definition using_mark : string := "üîß".
Definition disposed_mark : string := "‚ùå".

(** [n.toString()] for an integer. *)
Definition Number_toString (n : Z) : string :=
  NilZero.string_of_int (Z.to_int n).

(** What no method of the class undoes between two states: an object stays
    where it is, with its name, what it depends on and its timestamp, and
    stays disposed once it is; the log keeps what it has. *)
Definition keeps (w w' : World) : Prop :=
  (∀ this resource,
     objects w !! this = Some resource →
     ∃ resource',
       objects w' !! this = Some resource' ∧
       name resource' = name resource ∧
       dependsOn resource' = dependsOn resource ∧
       timestamp resource' = timestamp resource ∧
       (disposed resource = true → disposed resource' = true)) ∧
  logs w `prefix_of` logs w'.

Section Platform.
(** What the n-th call of [Date.now()] returns. *)
Variable Date_now : nat → Z.
(** What [new Date().toLocaleTimeString()] gives the n-th entry of the
    log. *)
Variable toLocaleTimeString : nat → string.

Definition now : M Z :=
  λ w, (Normal (Date_now (clock_reads w)),
        {| objects := objects w; logs := logs w;
           clock_reads := S (clock_reads w); log_writes := log_writes w |}).

(** [setLogs(prev => [...prev, { time, message, type }])] *)
Definition addLog (message type : string) : M unit :=
  λ w, (Normal (),
        {| objects := objects w;
           logs := logs w ++ [ {| time := toLocaleTimeString (log_writes w);
                                  message := message; type := type |} ];
           clock_reads := clock_reads w; log_writes := S (log_writes w) |}).

(** Reading the fields of [this], and writing them. A reference to an
    object that was never created does not exist in the program; the model
    makes the call throw. *)
Definition read (this : nat) : M Resource :=
  λ w, match objects w !! this with
       | Some resource => (Normal resource, w)
       | None => (Throw "TypeError", w)
       end.

Definition write (this : nat) (resource : Resource) : M unit :=
  λ w, (Normal (),
        {| objects := <[this := resource]> (objects w); logs := logs w;
           clock_reads := clock_reads w; log_writes := log_writes w |}).

(** The object [new] creates takes the next place. *)
Definition allocate (resource : Resource) : M nat :=
  λ w, (Normal (length (objects w)),
        {| objects := objects w ++ [resource]; logs := logs w;
           clock_reads := clock_reads w; log_writes := log_writes w |}).

(** [new Resource(name, dependsOn)] *)
Definition new (name : string) (dependsOn : option string) : M nat :=
  let* timestamp := now in
  let* this := allocate {| name := name; dependsOn := dependsOn;
                           timestamp := timestamp; disposed := false |} in
  let* _ := addLog (acquired_mark +:+ " " +:+ name +:+ " acquired") "success" in
  ret this.

(** [resource.use()] *)
Definition use (this : nat) : M unit :=
  let* resource := read this in
  if disposed resource
  then throw (name resource +:+ " already disposed!")
  else addLog (using_mark +:+ " Using " +:+ name resource) "info".

(** [resource[Symbol.dispose]()] *)
Definition dispose (this : nat) : M unit :=
  let* resource := read this in
  if disposed resource then ret ()
  else
    let* date_now := now in
    let duration := date_now - timestamp resource in
    let* _ := write this {| name := name resource;
                            dependsOn := dependsOn resource;
                            timestamp := timestamp resource;
                            disposed := true |} in
    addLog (disposed_mark +:+ " " +:+ name resource +:+ " disposed after "
            +:+ Number_toString duration +:+ "ms") "dispose".

(** [while (resources.length > 0) resources.pop()[Symbol.dispose]()], the
    loop of [demoMultipleResources]; it returns what is left of the array.
    Every turn makes the array shorter, so [fuel >= resources.length] turns
    are enough. *)
Fixpoint dispose_all (fuel : nat) (resources : list nat) : M (list nat) :=
  match fuel with
  | O => ret resources
  | S fuel' =>
      if decide (0 < length resources)%nat then
        match last resources with
        | Some this =>
            let* _ := dispose this in
            dispose_all fuel' (take (length resources - 1) resources)
        | None => ret resources
        end
      else ret resources
  end.
End Platform.

End Using.

(** *** [ArrayFromAsyncDemo]: the stand-in for [Array.fromAsync]

    An array may have holes, so an element of [result] is an [option]. The
    async iterable is given by what the promise of each of its steps is
    found to be when the loop awaits it, in order, up to the step that says
    it is done; a step that is rejected ends the loop. *)

Module FromAsync.

Section Polyfill.
Context {V : Type}.

(** [result[index] = value]: within the array the element is replaced; at
    the end or past it the array grows up to [index], with holes before
    it. *)
Definition array_set (result : list (option V)) (index : nat) (value : V)
    : list (option V) :=
  if decide (index < length result)%nat then <[index := Some value]> result
  else result ++ replicate (index - length result) None ++ [Some value].

(** [mapFn ? await mapFn.call(thisArg, value, index) : value] *)
Definition mappedValue (mapFn : option (V → nat → JS.promise V))
    (value : V) (index : nat) : JS.promise V :=
  match mapFn with
  | Some mapFn => mapFn value index
  | None => JS.Resolved value
  end.

(** [for await (const value of asyncIterable) { ...; result[index++] = ... }] *)
Fixpoint for_await (mapFn : option (V → nat → JS.promise V))
    (asyncIterable : list (JS.promise V)) (result : list (option V))
    (index : nat) : JS.promise (list (option V)) :=
  match asyncIterable with
  | [] => JS.Resolved result
  | step :: rest =>
      let! value := step in
      let! mapped := mappedValue mapFn value index in
      for_await mapFn rest (array_set result index mapped) (S index)
  end.

Definition Array_fromAsync (asyncIterable : list (JS.promise V))
    (mapFn : option (V → nat → JS.promise V)) : JS.promise (list (option V)) :=
  for_await mapFn asyncIterable [] 0%nat.
End Polyfill.

End FromAsync.

End Components.

(** ** Reference instances of the two variables

    To run the pipeline on a concrete directory tree, [Date.parse] is given
    for the one format every engine must accept the same way, the date-only
    form [YYYY-MM-DD] of the ECMAScript date-time string format (read as
    midnight UTC); every other string is taken as unparseable. The
    front-matter parser is given for the flat [key: value] blocks the posts
    of the blog use. *)

Module Reference.

Definition digit (c : ascii) : option Z :=
  let n := Z.of_N (N_of_ascii c) in
  if (48 <=? n) && (n <=? 57) then Some (n - 48) else None.

(** The value of a run of decimal digits. *)
Definition decimal (cs : list ascii) : option Z :=
  foldl (λ acc c, n ← acc; d ← digit c; Some (10 * n + d)) (Some 0) cs.

Definition InLeapYear (y : Z) : bool :=
  ((y mod 4 =? 0) && negb (y mod 100 =? 0)) || (y mod 400 =? 0).

Definition DaysInMonth (y m : Z) : Z :=
  if m =? 2 then (if InLeapYear y then 29 else 28)
  else if (m =? 4) || (m =? 6) || (m =? 9) || (m =? 11) then 30
  else 31.

(** Days from 1970-01-01 to the given day of the proleptic Gregorian
    calendar. *)
Definition MakeDay (y m d : Z) : Z :=
  let y' := if m <=? 2 then y - 1 else y in
  let era := y' / 400 in
  let yoe := y' - era * 400 in
  let doy := (153 * (if 2 <? m then m - 3 else m + 9) + 2) / 5 + d - 1 in
  let doe := yoe * 365 + yoe / 4 - yoe / 100 + doy in
  era * 146097 + doe - 719468.

Definition msPerDay : Z := 86400000.

Definition Date_parse (s : string) : JS.number :=
  match s with
  | String y1 (String y2 (String y3 (String y4 (String "-"
    (String m1 (String m2 (String "-"
    (String d1 (String d2 EmptyString))))))))) =>
      match decimal [y1; y2; y3; y4], decimal [m1; m2], decimal [d1; d2] with
      | Some y, Some m, Some d =>
          if (1 <=? m) && (m <=? 12) && (1 <=? d) && (d <=? DaysInMonth y m)
          then JS.Num (MakeDay y m d * msPerDay)
          else JS.NaN
      | _, _, _ => JS.NaN
      end
  | _ => JS.NaN
  end.

(** The lines of a text, cut at every line feed. *)
Fixpoint lines (s : string) : list string :=
  match s with
  | EmptyString => [EmptyString]
  | String c s' =>
      match lines s' with
      | l :: ls =>
          if decide (c = "010"%char) then EmptyString :: l :: ls
          else String c l :: ls
      | [] => [String c EmptyString]
      end
  end.

(** [key: value], cut at the first colon followed by a space. *)
Fixpoint key_value (line : string) : option (string * string) :=
  match line with
  | EmptyString => None
  | String ":" (String " " value) => Some (EmptyString, value)
  | String c rest =>
      '(key, value) ← key_value rest; Some (String c key, value)
  end.

(** A value written between single quotes stands for what is between
    them. *)
Definition unquote (value : string) : string :=
  match value with
  | String "'" rest =>
      match reverse (String.list_ascii_of_string rest) with
      | "'"%char :: inner => String.string_of_list_ascii (reverse inner)
      | _ => value
      end
  | _ => value
  end.

(** The lines after the opening delimiter, up to the closing one or, when
    the block is not closed, to the end of the text; blank lines count for
    nothing. *)
Fixpoint block (ls : list string) (data : JS.object) : option JS.object :=
  match ls with
  | [] => Some data
  | l :: ls' =>
      if decide (l = "---") then Some data
      else if decide (l = "") then block ls' data
      else '(key, value) ← key_value l; block ls' (<[key := unquote value]> data)
  end.

(** A text that does not open with the delimiter has no metadata. A line of
    the block that is no [key: value] is outside what this parser reads: it
    gives up, as gray-matter does when it throws. *)
Definition matter (fileContent : string) : option JS.object :=
  match lines fileContent with
  | l :: ls => if decide (l = "---") then block ls ∅ else Some ∅
  | [] => Some ∅
  end.

(** A file system with the given entries in [./public/] and the given
    files; every other path is missing. *)
Definition file_system (entries : list Dirent.t) (files : gmap string string)
    : FileSystem :=
  {| readdir path :=
       if decide (path = "./public/") then JS.Resolved entries
       else JS.Rejected (JS.ENOENT path);
     readFile path :=
       match files !! path with
       | Some content => JS.Resolved content
       | None => JS.Rejected (JS.ENOENT path)
       end |}.

Definition dir (name : string) : Dirent.t :=
  {| Dirent.name := name; Dirent.isDirectory := true |}.
Definition file (name : string) : Dirent.t :=
  {| Dirent.name := name; Dirent.isDirectory := false |}.

(** *** Directory trees to run the pipeline on

    Three posts of the blog, with the front matter they have in the
    repository, next to two files of [./public/] that are no directories. *)

Definition code_review_md : string :=
"---
title: Code Review - How to Give Feedback That Actually Helps
date: '2025-01-19'
spoiler: What I learned from giving 2,000+ code reviews (and getting plenty wrong)
cta: 'react'
---

I've given over 2,000 code reviews in my career.
".

Definition component_architecture_md : string :=
"---
title: Component Architecture - Stop Overthinking It
date: '2024-02-03'
spoiler: How to actually make architecture decisions based on real pain, not best practices
cta: 'react'
---

I've built component systems that nobody used.
".

Definition onboarding_md : string :=
"---
title: Onboarding Developers - The First Week That Makes or Breaks Them
date: '2025-05-25'
spoiler: What I learned from watching 50+ developers join our team (and remembering my own terrible first weeks)
cta: 'react'
---

I've watched over 50 developers join teams I've been on.
".

Definition blog_entries : list Dirent.t :=
  [ file "avi.jpg";
    dir "code-review-feedback-that-helps";
    dir "component-architecture-stop-overthinking-it";
    file "favicon.ico";
    dir "onboarding-developers-first-week" ].

Definition blog_files : gmap string string :=
  {[ "./public/code-review-feedback-that-helps/index.md" := code_review_md;
     "./public/component-architecture-stop-overthinking-it/index.md" :=
       component_architecture_md;
     "./public/onboarding-developers-first-week/index.md" := onboarding_md ]}.

Definition blog : FileSystem := file_system blog_entries blog_files.

Definition code_review : JS.object :=
  {[ "slug" := "code-review-feedback-that-helps";
     "title" := "Code Review - How to Give Feedback That Actually Helps";
     "date" := "2025-01-19";
     "spoiler" :=
       "What I learned from giving 2,000+ code reviews (and getting plenty wrong)";
     "cta" := "react" ]}.

Definition component_architecture : JS.object :=
  {[ "slug" := "component-architecture-stop-overthinking-it";
     "title" := "Component Architecture - Stop Overthinking It";
     "date" := "2024-02-03";
     "spoiler" :=
       "How to actually make architecture decisions based on real pain, not best practices";
     "cta" := "react" ]}.

Definition onboarding : JS.object :=
  {[ "slug" := "onboarding-developers-first-week";
     "title" := "Onboarding Developers - The First Week That Makes or Breaks Them";
     "date" := "2025-05-25";
     "spoiler" :=
       "What I learned from watching 50+ developers join our team (and remembering my own terrible first weeks)";
     "cta" := "react" ]}.

(** The blog as the repository has it: the directory of the Turkish
    translation holds [index.tr.md] and no [index.md]. *)
Definition truthy_and_falsy : string :=
  "truthy-and-falsy-values-and-logical-operators-in-java-script".

Definition blog_with_translation : FileSystem :=
  file_system (blog_entries ++ [dir truthy_and_falsy])
    (<["./public/" +:+ truthy_and_falsy +:+ "/index.tr.md" :=
        "---
title: Truthy and Falsy values and logical operators in JavaScript
date: '2020-01-06'
spoiler: Everything either truthy or falsy
cta: 'javascript'
---
"]> blog_files).

(** A post whose front matter has no [spoiler]. *)
Definition draft_md : string :=
"---
title: Notes for a later post
date: '2026-02-01'
---

To be written.
".

Definition blog_with_draft : FileSystem :=
  file_system [dir "notes-for-a-later-post"]
    {[ "./public/notes-for-a-later-post/index.md" := draft_md ]}.

(** A post whose front matter has a [slug] of its own. *)
Definition renamed_md : string :=
"---
title: Hello
date: '2024-03-01'
spoiler: Hi
slug: greetings
---

Hello, world.
".

Definition blog_with_renamed_post : FileSystem :=
  file_system [dir "hello-world"]
    {[ "./public/hello-world/index.md" := renamed_md ]}.

(** Three posts with all their fields; the date of the second one is no
    date. *)
Definition summer_md : string :=
"---
title: Summer
date: '2024-06-01'
spoiler: The newer post
---
".

Definition someday_md : string :=
"---
title: Someday
date: 'TBA'
spoiler: The post without a date
---
".

Definition winter_md : string :=
"---
title: Winter
date: '2024-01-01'
spoiler: The older post
---
".

Definition blog_with_unparseable_date : FileSystem :=
  file_system [dir "summer"; dir "someday"; dir "winter"]
    {[ "./public/summer/index.md" := summer_md;
       "./public/someday/index.md" := someday_md;
       "./public/winter/index.md" := winter_md ]}.

Definition summer : JS.object :=
  {[ "slug" := "summer"; "title" := "Summer"; "date" := "2024-06-01";
     "spoiler" := "The newer post" ]}.

Definition someday : JS.object :=
  {[ "slug" := "someday"; "title" := "Someday"; "date" := "TBA";
     "spoiler" := "The post without a date" ]}.

Definition winter : JS.object :=
  {[ "slug" := "winter"; "title" := "Winter"; "date" := "2024-01-01";
     "spoiler" := "The older post" ]}.

(** Three records to sort: two with a date, one without. *)
Definition newer : JS.object := {[ "slug" := "newer"; "date" := "2024-06-01" ]}.
Definition older : JS.object := {[ "slug" := "older"; "date" := "2024-01-01" ]}.
Definition undated : JS.object := {[ "slug" := "undated" ]}.

(** The blog with its directories listed in another order. *)
Definition blog_listed_otherwise : FileSystem :=
  file_system (reverse blog_entries) blog_files.






(** A post whose front matter is no block of [key: value] lines. *)
Definition broken_md : string :=
"---
title: Broken
{ not a mapping
---
".

Definition blog_with_broken_post : FileSystem :=
  file_system (dir "broken" :: blog_entries)
    (<["./public/broken/index.md" := broken_md]> blog_files).

(** The same, with one more directory, which has no [index.md]. *)
Definition blog_with_broken_and_missing_post : FileSystem :=
  file_system (dir "broken" :: blog_entries ++ [dir truthy_and_falsy])
    (<["./public/broken/index.md" := broken_md]> blog_files).

(** A root with files and no directory. *)
Definition blog_without_posts : FileSystem :=
  file_system [file "avi.jpg"; file "favicon.ico"] ∅.

(** A post with front-matter keys the pipeline does not know. *)
Definition talk_md : string :=
"---
title: A talk
date: '2025-03-01'
spoiler: Recorded last week
youtube: https://youtu.be/talk
bluesky: https://bsky.app/profile/sulhadin
---
".

Definition blog_with_talk : FileSystem :=
  file_system [dir "a-talk"] {[ "./public/a-talk/index.md" := talk_md ]}.

Definition talk : JS.object :=
  {[ "slug" := "a-talk"; "title" := "A talk"; "date" := "2025-03-01";
     "spoiler" := "Recorded last week";
     "youtube" := "https://youtu.be/talk";
     "bluesky" := "https://bsky.app/profile/sulhadin" ]}.

(** Stand-ins for what the two pages take from their platform. The image
    of a post is known by the title it shows. *)
Definition ImageResponse : Type := option string.

Definition generatePostImage (title : option string)
    : JS.promise ImageResponse :=
  JS.Resolved title.

(** The civil date of a day number (days since the epoch), in the
    proleptic Gregorian calendar. *)
Definition civil_from_days (days : Z) : Z * Z * Z :=
  let z := days + 719468 in
  let era := z / 146097 in
  let doe := z - era * 146097 in
  let yoe := (doe - doe / 1460 + doe / 36524 - doe / 146096) / 365 in
  let doy := doe - (365 * yoe + yoe / 4 - yoe / 100) in
  let mp := (5 * doy + 2) / 153 in
  let d := doy - (153 * mp + 2) / 5 + 1 in
  let m := if mp <? 10 then mp + 3 else mp - 9 in
  (if m <=? 2 then yoe + era * 400 + 1 else yoe + era * 400, m, d).

Definition month_name (m : Z) : string :=
  nth (Z.to_nat (m - 1))
    ["January"; "February"; "March"; "April"; "May"; "June"; "July";
     "August"; "September"; "October"; "November"; "December"] "".

(** [toLocaleDateString('en', { day: 'numeric', month: 'long', year:
    'numeric' })] for a reader in UTC. *)
Definition toLocaleDateString (t : JS.number) : string :=
  match t with
  | JS.NaN => "Invalid Date"
  | JS.Num ms =>
      let '(y, m, d) := civil_from_days (ms / msPerDay) in
      month_name m +:+ " " +:+ Components.Using.Number_toString d +:+ ", "
      +:+ Components.Using.Number_toString y
  end.

(** A clock that is half a second further every time it is read, and a log
    written within one second. *)
Definition Date_now (n : nat) : Z := 1700000000000 + 500 * Z.of_nat n.

Definition toLocaleTimeString (n : nat) : string := "10:00:00 AM".

Definition nothing_yet : Components.Using.World :=
  {| Components.Using.objects := []; Components.Using.logs := [];
     Components.Using.clock_reads := 0; Components.Using.log_writes := 0 |}.

(** The three resources of [demoMultipleResources], acquired and pushed in
    the order of the source. *)
Definition acquire_three : Components.Using.M (list nat) :=
  Components.Using.bind
    (Components.Using.new Date_now toLocaleTimeString "Database" None)
    (λ db,
      Components.Using.bind
        (Components.Using.new Date_now toLocaleTimeString
           "Cache (depends on DB)" None)
        (λ cache,
          Components.Using.bind
            (Components.Using.new Date_now toLocaleTimeString
               "Session (depends on Cache)" None)
            (λ session, Components.Using.ret [db; cache; session]))).

Definition three_acquired : Components.Using.World :=
  (acquire_three nothing_yet).2.

(** The steps of [countdown(3)], and one that fails at its second step. *)
Definition countdown_3 : list (JS.promise Z) :=
  [JS.Resolved 3; JS.Resolved 2; JS.Resolved 1].

Definition countdown_interrupted : list (JS.promise Z) :=
  [JS.Resolved 3; JS.Rejected (JS.TypeError "interrupted"); JS.Resolved 1].

(** [n => n * 2] *)
Definition twice : option (Z → nat → JS.promise Z) :=
  Some (λ n _, JS.Resolved (n * 2)).

End Reference.

Import Posts.

(** * Properties *)

(** ** [Array.prototype.sort] permutes, and sorts when the comparator is an order *)

Section ArraySortFacts.
Context {A : Type} (comparefn : A → A → Z).

#[local] Abbreviation before := (JS.before comparefn).

Lemma run_tail_length isDescending previous rest :
  (JS.run_tail comparefn isDescending previous rest ≤ length rest)%nat.
Proof.
  revert previous.
  induction rest as [|current rest IH]; intros previous; simpl; [lia|].
  destruct (if isDescending then _ else _); [lia|].
  specialize (IH current). lia.
Qed.

Lemma CountAndMakeRun_Permutation array :
  (JS.CountAndMakeRun comparefn array).1 ≡ₚ array.
Proof.
  destruct array as [|elementHigh [|elementLow rest]]; simpl; try done.
  destruct (_ <? 0); [|done].
  rewrite reverse_Permutation. simpl. by rewrite take_drop.
Qed.

Lemma insert_pivot_Permutation sorted pivot :
  JS.insert_pivot comparefn sorted pivot ≡ₚ sorted ++ [pivot].
Proof.
  unfold JS.insert_pivot.
  rewrite <-Permutation_middle, take_drop.
  apply Permutation_cons_append.
Qed.

Lemma foldl_insert_pivot_Permutation rest sorted :
  foldl (JS.insert_pivot comparefn) sorted rest ≡ₚ sorted ++ rest.
Proof.
  revert sorted.
  induction rest as [|pivot rest IH]; intros sorted; simpl.
  - by rewrite app_nil_r.
  - rewrite IH, insert_pivot_Permutation, <-app_assoc. done.
Qed.

Lemma sort_Permutation array : JS.sort comparefn array ≡ₚ array.
Proof.
  unfold JS.sort. case_decide; [done|].
  pose proof (CountAndMakeRun_Permutation array) as Hrun.
  destruct (JS.CountAndMakeRun comparefn array) as [workArray runLength].
  unfold JS.BinaryInsertionSort.
  by rewrite foldl_insert_pivot_Permutation, take_drop.
Qed.

Lemma sort_length array : length (JS.sort comparefn array) = length array.
Proof. by rewrite sort_Permutation. Qed.

(** On the elements that satisfy [P], the comparator decides a total
    preorder. *)
Variable P : A → Prop.
Hypothesis before_total : ∀ x y, P x → P y → ¬ before x y → before y x.
Hypothesis before_trans :
  ∀ x y z, P x → P y → P z → before x y → before y z → before x z.

#[local] Abbreviation ordered := (JS.ordered comparefn P).
#[local] Abbreviation run_step := (JS.run_step comparefn P).

Lemma ordered_trans : Transitive ordered.
Proof.
  intros x y z (Hx & Hy & Hxy) (_ & Hz & Hyz).
  repeat split; eauto.
Qed.
#[local] Existing Instance ordered_trans.

Lemma StronglySorted_lookup (R : relation A) l i j x y :
  StronglySorted R l → (i < j)%nat → l !! i = Some x → l !! j = Some y → R x y.
Proof.
  intros Hsorted Hij Hi Hj.
  rewrite <-(take_drop_middle l i x Hi) in Hsorted, Hj.
  apply StronglySorted_app_1_r, StronglySorted_cons in Hsorted as [Hall _].
  rewrite Forall_forall in Hall. apply Hall.
  assert (length (take i l) = i) as Hlen.
  { apply length_take_le. apply lookup_lt_Some in Hi. lia. }
  rewrite lookup_app_r in Hj by lia. rewrite Hlen in Hj.
  destruct (j - i)%nat as [|d] eqn:Hd; [lia|]. simpl in Hj.
  by eapply list_elem_of_lookup_2.
Qed.

(** The run [CountAndMakeRun] counts is a chain of the relation it tests. *)
Lemma run_tail_Sorted isDescending previous rest :
  P previous → Forall P rest →
  Sorted (run_step isDescending)
    (previous :: take (JS.run_tail comparefn isDescending previous rest) rest).
Proof.
  revert previous.
  induction rest as [|current rest IH]; intros previous Hp Hrest; simpl.
  { repeat constructor. }
  apply Forall_cons in Hrest as [Hc Hrest].
  destruct isDescending; simpl.
  - destruct (Z.leb_spec 0 (comparefn current previous)); simpl.
    + repeat constructor.
    + constructor; [by apply IH|]. constructor. by repeat split.
  - destruct (Z.ltb_spec (comparefn current previous) 0); simpl.
    + repeat constructor.
    + constructor; [by apply IH|]. constructor.
      repeat split; [done..|]. apply before_total; [done..|]. unfold JS.before. lia.
Qed.

Lemma CountAndMakeRun_spec array workArray runLength :
  (2 ≤ length array)%nat → Forall P array →
  JS.CountAndMakeRun comparefn array = (workArray, runLength) →
  (runLength ≤ length workArray)%nat ∧
  StronglySorted ordered (take runLength workArray).
Proof.
  intros Hlen Hall.
  destruct array as [|elementHigh [|elementLow rest]]; simpl in Hlen; try lia.
  apply Forall_cons in Hall as [Hhigh Hall].
  pose proof Hall as Hall'. apply Forall_cons in Hall' as [Hlow Hrest].
  unfold JS.CountAndMakeRun.
  set (isDescending := comparefn elementLow elementHigh <? 0).
  pose proof (run_tail_length isDescending elementLow rest) as Hn.
  pose proof (run_tail_Sorted isDescending elementLow rest Hlow Hrest) as Hrun.
  set (n := JS.run_tail comparefn isDescending elementLow rest) in *.
  assert (Sorted (run_step isDescending)
            (take (2 + n) (elementHigh :: elementLow :: rest))) as Hsorted.
  { simpl. constructor; [done|]. constructor. subst isDescending.
    destruct (Z.ltb_spec (comparefn elementLow elementHigh) 0); simpl.
    - by repeat split.
    - repeat split; [done..|]. apply before_total; [done..|]. unfold JS.before. lia. }
  intros [= <- <-]. simpl in Hsorted. destruct isDescending; simpl.
  - split.
    + rewrite length_app, length_reverse, length_drop. simpl.
      rewrite length_take. lia.
    + rewrite (take_app_length' _ _ (S (S n))).
      2:{ rewrite length_reverse. simpl. rewrite length_take. lia. }
      apply (@Sorted_StronglySorted _ ordered ordered_trans).
      apply Sorted_reverse in Hsorted. exact Hsorted.
  - split; [lia|].
    by apply (@Sorted_StronglySorted _ ordered ordered_trans).
Qed.

Lemma binary_search_spec sorted pivot :
  StronglySorted ordered sorted → Forall P sorted → P pivot →
  ∀ fuel left right,
    (right - left ≤ fuel)%nat → (left ≤ right ≤ length sorted)%nat →
    (∀ i x, (i < left)%nat → sorted !! i = Some x → ordered x pivot) →
    (∀ i x, (right ≤ i)%nat → sorted !! i = Some x → ordered pivot x) →
    (∀ i x, (i < JS.binary_search comparefn fuel sorted pivot left right)%nat →
            sorted !! i = Some x → ordered x pivot) ∧
    (∀ i x, (JS.binary_search comparefn fuel sorted pivot left right ≤ i)%nat →
            sorted !! i = Some x → ordered pivot x).
Proof.
  intros Hsorted Hall Hpivot.
  induction fuel as [|fuel IH]; intros left right Hfuel Hrange Hleft Hright;
    cbn [JS.binary_search].
  { split; [done|]. intros i x Hi. apply Hright. lia. }
  case_decide as Hlt.
  2:{ split; [done|]. intros i x Hi. apply Hright. lia. }
  set (mid := (left + (right - left) / 2)%nat).
  assert (left ≤ mid < right)%nat as Hmid.
  { subst mid. pose proof (Nat.div_mod_eq (right - left) 2).
    pose proof (Nat.mod_upper_bound (right - left) 2). lia. }
  destruct (lookup_lt_is_Some_2 sorted mid) as [element Helement]; [lia|].
  rewrite Helement.
  assert (P element) as Pelement.
  { rewrite Forall_forall in Hall. apply Hall.
    by eapply list_elem_of_lookup_2. }
  destruct (Z.ltb_spec (comparefn pivot element) 0) as [Hlt0|Hge0].
  - apply IH; [lia|lia|done|].
    intros i x Hi Hx. destruct (decide (i = mid)) as [->|Hne].
    + rewrite Helement in Hx. injection Hx as <-. by repeat split.
    + transitivity element; [by repeat split|].
      eapply (StronglySorted_lookup ordered sorted mid i); eauto. lia.
  - assert (ordered element pivot) as Hep.
    { repeat split; [done..|]. apply before_total; [done..|]. unfold JS.before. lia. }
    apply IH; [lia|lia| |done].
    intros i x Hi Hx. destruct (decide (i = mid)) as [->|Hne].
    + rewrite Helement in Hx. by injection Hx as <-.
    + transitivity element; [|done].
      eapply (StronglySorted_lookup ordered sorted i mid); eauto. lia.
Qed.

Lemma insert_pivot_StronglySorted sorted pivot :
  StronglySorted ordered sorted → Forall P sorted → P pivot →
  StronglySorted ordered (JS.insert_pivot comparefn sorted pivot).
Proof.
  intros Hsorted Hall Hpivot. unfold JS.insert_pivot.
  destruct (binary_search_spec sorted pivot Hsorted Hall Hpivot
              (length sorted) 0%nat (length sorted)) as [Hbelow Habove].
  { lia. } { lia. } { intros; lia. }
  { intros i x Hi Hx. apply lookup_lt_Some in Hx. lia. }
  set (left := JS.binary_search _ _ _ _ _ _) in *.
  rewrite <-(take_drop left sorted) in Hsorted.
  apply StronglySorted_app in Hsorted as (Hcross & Htake & Hdrop).
  apply StronglySorted_app_2; [|done|].
  - intros x1 x2 Hx1 [->|Hx2]%elem_of_cons; [|by apply Hcross].
    apply elem_of_take in Hx1 as (i & Hi & Hlt). by eapply Hbelow.
  - apply StronglySorted_cons. split; [|done].
    apply Forall_forall. intros x Hx.
    apply list_elem_of_lookup in Hx as [i Hi].
    rewrite lookup_drop in Hi. eapply Habove; [|done]. lia.
Qed.

Lemma foldl_insert_pivot_StronglySorted rest sorted :
  StronglySorted ordered sorted → Forall P sorted → Forall P rest →
  StronglySorted ordered (foldl (JS.insert_pivot comparefn) sorted rest).
Proof.
  revert sorted.
  induction rest as [|pivot rest IH]; intros sorted Hsorted Hall Hrest; simpl.
  { done. }
  apply Forall_cons in Hrest as [Hpivot Hrest].
  apply IH; [by apply insert_pivot_StronglySorted| |done].
  rewrite insert_pivot_Permutation. apply Forall_app. by repeat constructor.
Qed.

Lemma StronglySorted_weaken (R1 R2 : relation A) l :
  (∀ x y, R1 x y → R2 x y) → StronglySorted R1 l → StronglySorted R2 l.
Proof.
  intros Himpl. induction 1 as [|x l _ IH Hall]; constructor; [done|].
  eapply Forall_impl; [exact Hall|]. apply Himpl.
Qed.

(** The result of the sort has every element before all the later ones. *)
Lemma sort_StronglySorted array :
  Forall P array → StronglySorted before (JS.sort comparefn array).
Proof.
  intros Hall.
  eapply (StronglySorted_weaken ordered); [by intros x y (_ & _ & Hxy)|].
  unfold JS.sort. case_decide as Hlen.
  { destruct array as [|x [|y array]]; simpl in Hlen; try lia;
      repeat constructor. }
  destruct (JS.CountAndMakeRun comparefn array) as [workArray runLength] eqn:Hrun.
  pose proof (CountAndMakeRun_Permutation array) as Hperm.
  rewrite Hrun in Hperm. simpl in Hperm.
  apply CountAndMakeRun_spec in Hrun as [_ Hsorted]; [|lia|done].
  rewrite <-Hperm, <-(take_drop runLength workArray) in Hall.
  apply Forall_app in Hall as [Htake Hdrop].
  by apply foldl_insert_pivot_StronglySorted.
Qed.
End ArraySortFacts.

(** ** What [getPosts] returns *)

Section PostsFacts.
Variable Date_parse : string → JS.number.
Variable matter : string → option JS.object.

#[local] Abbreviation compare := (compare Date_parse).
#[local] Abbreviation parsed_date := (parsed_date Date_parse).
#[local] Abbreviation parseable := (parseable Date_parse).
#[local] Abbreviation getPosts := (getPosts Date_parse matter).
#[local] Abbreviation generateFeed := (generateFeed Date_parse matter).
#[local] Abbreviation item_of := (item_of Date_parse).
#[local] Abbreviation post_of_directory := (post_of_directory matter).

Lemma Promise_all_Resolved {A B : Type} (f : A → JS.promise B) l ys :
  JS.Promise_all (f <$> l) = JS.Resolved ys ↔
  Forall2 (λ x y, f x = JS.Resolved y) l ys.
Proof.
  revert ys. induction l as [|x l IH]; intros ys.
  { split; [intros [= <-]; constructor|by inversion 1]. }
  rewrite fmap_cons. cbn [JS.Promise_all]. split.
  - intros H. destruct (f x) as [y|] eqn:Hx; [|discriminate H].
    destruct (JS.Promise_all (f <$> l)) as [ys'|] eqn:Hl; [|discriminate H].
    injection H as <-. constructor; [done|]. by apply IH.
  - inversion 1 as [|? y ? ys' Hy Hys]; subst.
    apply IH in Hys. by rewrite Hy, Hys.
Qed.

(** One rejected promise rejects [Promise.all]. *)
Lemma Promise_all_Rejected {A B : Type} (f : A → JS.promise B) l x e :
  x ∈ l → f x = JS.Rejected e → ∃ e', JS.Promise_all (f <$> l) = JS.Rejected e'.
Proof.
  intros Hx Hfx.
  destruct (JS.Promise_all (f <$> l)) as [ys|e'] eqn:Hall; [|by eexists].
  apply Promise_all_Resolved in Hall.
  apply list_elem_of_lookup in Hx as [i Hi].
  destruct (Forall2_lookup_l _ _ _ _ _ Hall Hi) as (y & _ & Hy).
  congruence.
Qed.

Lemma map_indexed_Resolved {A B : Type} (callback : A → nat → JS.promise B) i l ys :
  map_indexed callback i l = JS.Resolved ys ↔
  length l = length ys ∧
  ∀ k x y, l !! k = Some x → ys !! k = Some y →
           callback x (i + k)%nat = JS.Resolved y.
Proof.
  revert i ys. induction l as [|x l IH]; intros i ys; cbn [map_indexed].
  { split.
    - intros [= <-]. split; [done|]. intros k x y Hk. by destruct k.
    - intros [Hlen _]. by destruct ys. }
  destruct ys as [|y0 ys].
  { split; [|by intros [? _]].
    destruct (callback x i); [|done].
    by destruct (map_indexed callback (S i) l). }
  specialize (IH (S i) ys). split.
  - intros H. destruct (callback x i) as [y|] eqn:Hx; [|discriminate H].
    destruct (map_indexed callback (S i) l) as [ys'|]; [|discriminate H].
    injection H as -> ->.
    destruct IH as [IH _]. destruct (IH eq_refl) as [Hlen Hk].
    split; [simpl; lia|].
    intros [|k] x' y'; simpl.
    + intros [= <-] [= <-]. by rewrite Nat.add_0_r.
    + intros Hx' Hy'. rewrite Nat.add_succ_r. by eapply Hk.
  - intros [Hlen Hk].
    pose proof (Hk 0%nat x y0 eq_refl eq_refl) as H0.
    rewrite Nat.add_0_r in H0. rewrite H0. simpl.
    destruct IH as [_ IH]. rewrite IH; [done|].
    split; [simpl in Hlen; lia|].
    intros k x' y' Hx' Hy'. specialize (Hk (S k) x' y' Hx' Hy').
    by rewrite Nat.add_succ_r in Hk.
Qed.

Lemma make_post_Resolved fileContents slug i post :
  make_post matter fileContents slug i = JS.Resolved post ↔
  ∃ fileContent data,
    fileContents !! i = Some fileContent ∧
    matter fileContent = Some data ∧
    post = JS.spread {[ "slug" := slug ]} data.
Proof.
  unfold make_post. split.
  - destruct (fileContents !! i) as [fileContent|]; [|done].
    destruct (matter fileContent) as [data|] eqn:Hdata; [|done].
    intros [= <-]. by exists fileContent, data.
  - intros (fileContent & data & -> & -> & ->). done.
Qed.

(** The record of a directory has a [slug]: the one of its front matter
    when there is one, the name of the directory otherwise. *)
Lemma spread_slug (dir : string) (data : JS.object) :
  JS.spread {[ "slug" := dir ]} data !! "slug"
  = Some (default dir (data !! "slug")).
Proof.
  unfold JS.spread. destruct (data !! "slug") as [s|] eqn:Hs; simpl.
  - by apply lookup_union_Some_l.
  - rewrite lookup_union_r by done. apply lookup_singleton_eq.
Qed.

(** Every other property of the record is the one of the front matter. *)
Lemma spread_other (dir key : string) (data : JS.object) :
  key ≠ "slug" → JS.spread {[ "slug" := dir ]} data !! key = data !! key.
Proof.
  intros Hkey. unfold JS.spread. destruct (data !! key) as [v|] eqn:Hv.
  - by apply lookup_union_Some_l.
  - rewrite lookup_union_r by done. by apply lookup_singleton_ne.
Qed.

Lemma elem_of_directories name entries :
  name ∈ directories entries ↔
  {| Dirent.name := name; Dirent.isDirectory := true |} ∈ entries.
Proof.
  unfold directories. rewrite list_elem_of_fmap. split.
  - intros ([name' isDir] & -> & [Hdir Hin]%list_elem_of_filter).
    simpl in *. by subst.
  - intros Hin. eexists. split; [|apply list_elem_of_filter; split; [|exact Hin]];
      done.
Qed.

Lemma posts_fileContents fs dirs unsorted :
  Forall2 (post_of_directory fs) dirs unsorted →
  ∃ fileContents,
    Forall2 (λ dir c, readFile fs (index_md dir) = JS.Resolved c) dirs fileContents ∧
    ∀ k dir post, dirs !! k = Some dir → unsorted !! k = Some post →
                  make_post matter fileContents dir k = JS.Resolved post.
Proof.
  induction 1 as [|dir post dirs unsorted Hpost _ (fileContents & Hread & Hmake)].
  { exists []. split; [constructor|]. intros k dir post Hk. by destruct k. }
  destruct Hpost as (fileContent & data & Hfile & Hdata & ->).
  exists (fileContent :: fileContents). split; [by constructor|].
  intros [|k] dir' post'; simpl.
  - intros [= <-] [= <-]. apply make_post_Resolved. by exists fileContent, data.
  - apply Hmake.
Qed.

(** [getPosts] resolves exactly when [./public/] can be listed and the
    [index.md] of every directory in it can be read and parsed; it then
    returns the records of the directories, sorted. *)
Lemma getPosts_Resolved fs posts :
  getPosts fs = JS.Resolved posts ↔
  ∃ entries unsorted,
    readdir fs "./public/" = JS.Resolved entries ∧
    Forall2 (post_of_directory fs) (directories entries) unsorted ∧
    posts = JS.sort compare unsorted.
Proof.
  unfold Posts.getPosts. split.
  - intros H.
    destruct (readdir fs "./public/") as [entries|]; [|discriminate H].
    cbn [JS.await] in H.
    destruct (JS.Promise_all _) as [fileContents|] eqn:Hread; [|discriminate H].
    cbn [JS.await] in H.
    destruct (map_indexed _ _ _) as [unsorted|] eqn:Hmake; [|discriminate H].
    injection H as <-. exists entries, unsorted. repeat split.
    apply Promise_all_Resolved in Hread.
    apply map_indexed_Resolved in Hmake as [Hlen Hmake].
    apply Forall2_same_length_lookup_2; [done|].
    intros k dir post Hdir Hpost.
    pose proof (Hmake k dir post Hdir Hpost) as Hmade.
    apply make_post_Resolved in Hmade as (c & data & Hc & Hdata & ->).
    exists c, data. repeat split; [|done].
    destruct (Forall2_lookup_l _ _ _ _ _ Hread Hdir) as (c' & Hc' & Hfile).
    simpl in Hc. congruence.
  - intros (entries & unsorted & -> & Hposts & ->). cbn [JS.await].
    destruct (posts_fileContents _ _ _ Hposts) as (fileContents & Hread & Hmake).
    apply Promise_all_Resolved in Hread. rewrite Hread. cbn [JS.await].
    assert (map_indexed (make_post matter fileContents) 0 (directories entries)
            = JS.Resolved unsorted) as ->; [|done].
    apply map_indexed_Resolved. split; [by eapply Forall2_length|done].
Qed.

(** The same, read as a guarantee that [getPosts] returns. *)
Lemma getPosts_returns fs entries :
  readdir fs "./public/" = JS.Resolved entries →
  (∀ dir, dir ∈ directories entries →
     ∃ fileContent data,
       readFile fs (index_md dir) = JS.Resolved fileContent ∧
       matter fileContent = Some data) →
  ∃ unsorted,
    Forall2 (post_of_directory fs) (directories entries) unsorted ∧
    getPosts fs = JS.Resolved (JS.sort compare unsorted).
Proof.
  intros Hentries Hdirs.
  assert (∃ unsorted, Forall2 (post_of_directory fs) (directories entries) unsorted)
    as [unsorted Hposts].
  { induction (directories entries) as [|dir dirs IH].
    { exists []. constructor. }
    destruct IH as [unsorted IH].
    { intros dir' Hin. apply Hdirs. by right. }
    destruct (Hdirs dir) as (fileContent & data & Hfile & Hdata); [by left|].
    exists (JS.spread {[ "slug" := dir ]} data :: unsorted).
    constructor; [|done]. by exists fileContent, data. }
  exists unsorted. split; [done|].
  apply getPosts_Resolved. by exists entries, unsorted.
Qed.

(** ** The comparator and the order of the posts *)

Lemma compare_cases a b :
  JS.lt (parsed_date a) (parsed_date b) = true ∧ compare a b = 1 ∨
  JS.lt (parsed_date a) (parsed_date b) = false ∧ compare a b = -1.
Proof.
  unfold Posts.compare, Posts.parsed_date.
  destruct (JS.lt _ _); [left|right]; done.
Qed.

Lemma lt_irrefl x : JS.lt x x = false.
Proof. destruct x as [|ms]; simpl; [done|]. apply Z.ltb_irrefl. Qed.

Lemma lt_NaN x y : x = JS.NaN ∨ y = JS.NaN → JS.lt x y = false.
Proof. intros [-> | ->]; [done|]. by destruct x. Qed.

(** On posts whose date parses, [order < 0] says that the first date is not
    the earlier one. *)
Lemma before_ge a b :
  parseable a → parseable b →
  (JS.before compare a b ↔ JS.ge (parsed_date a) (parsed_date b)).
Proof.
  unfold Posts.parseable, JS.before. intros Ha Hb.
  destruct (compare_cases a b) as [[Hlt ->]|[Hlt ->]];
    destruct (parsed_date a) as [|x], (parsed_date b) as [|y];
    simpl in *; try done.
  - apply Z.ltb_lt in Hlt. lia.
  - apply Z.ltb_ge in Hlt. lia.
Qed.

(** C9. The comparator of [getPosts] never returns 0: it returns 1 when the
    parsed date of [a] is strictly less than that of [b], and -1 in every
    other case. So for two posts with the same date string, and for two
    posts one of which has a date that parses to [NaN], it returns -1 for
    both orders of the arguments: it is not antisymmetric. *)
Theorem compare_never_zero a b :
  compare a b ≠ 0 ∧
  (compare a b = 1 ↔ JS.lt (parsed_date a) (parsed_date b) = true) ∧
  (compare a b = -1 ↔ JS.lt (parsed_date a) (parsed_date b) = false) ∧
  (a !! "date" = b !! "date" → compare a b = -1 ∧ compare b a = -1) ∧
  (parsed_date a = JS.NaN ∨ parsed_date b = JS.NaN →
   compare a b = -1 ∧ compare b a = -1).
Proof.
  split; [|split; [|split; [|split]]].
  - destruct (compare_cases a b) as [[_ ->]|[_ ->]]; done.
  - destruct (compare_cases a b) as [[Hlt ->]|[Hlt ->]]; split; congruence.
  - destruct (compare_cases a b) as [[Hlt ->]|[Hlt ->]]; split; congruence.
  - intros Hsame.
    assert (parsed_date a = parsed_date b) as Hdate.
    { unfold Posts.parsed_date. by rewrite Hsame. }
    destruct (compare_cases a b) as [[Hab _]|[_ ->]],
             (compare_cases b a) as [[Hba _]|[_ ->]];
      rewrite ?Hdate, ?lt_irrefl in *; done.
  - intros HNaN.
    destruct (compare_cases a b) as [[Hab _]|[_ ->]],
             (compare_cases b a) as [[Hba _]|[_ ->]];
      rewrite ?(lt_NaN (parsed_date a) (parsed_date b)) in * by tauto;
      rewrite ?(lt_NaN (parsed_date b) (parsed_date a)) in * by tauto; done.
Qed.

(** C2, as the code has it. A missing or unparseable date parses to [NaN],
    and the comparator answers -1 as soon as one of the two dates is [NaN].
    The sort still returns, with every post in its result; but a post
    without a valid date has no place of its own among the others: of two
    posts one of which has no valid date, the sort puts the second first. *)
Theorem sort_with_unparseable_dates :
  (∀ post, post !! "date" = None → parsed_date post = JS.NaN) ∧
  (∀ a b, parsed_date a = JS.NaN ∨ parsed_date b = JS.NaN → compare a b = -1) ∧
  (∀ posts, JS.sort compare posts ≡ₚ posts) ∧
  (∀ a b, parsed_date a = JS.NaN ∨ parsed_date b = JS.NaN →
          JS.sort compare [a; b] = [b; a]).
Proof.
  assert (∀ a b, parsed_date a = JS.NaN ∨ parsed_date b = JS.NaN →
                 compare a b = -1) as Hcompare.
  { intros a b H. destruct (compare_cases a b) as [[Hlt _]|[_ ->]]; [|done].
    by rewrite lt_NaN in Hlt. }
  repeat split.
  - intros post Hdate. unfold Posts.parsed_date. by rewrite Hdate.
  - done.
  - apply sort_Permutation.
  - intros a b H. unfold JS.sort. simpl.
    rewrite (Hcompare b a) by tauto. done.
Qed.

(** C1, as the code has it. The posts [getPosts] returns are in the order
    of their dates, the most recent first, when the date of every post of
    the collection parses: a post that stands before another then has a date
    that is not earlier. *)
Theorem getPosts_descending_dates fs posts :
  getPosts fs = JS.Resolved posts →
  Forall parseable posts →
  ∀ i j A B, (i < j)%nat → posts !! i = Some A → posts !! j = Some B →
             JS.ge (parsed_date A) (parsed_date B).
Proof.
  intros (entries & unsorted & _ & _ & ->)%getPosts_Resolved Hall i j A B Hij HA HB.
  assert (parseable A ∧ parseable B) as [HpA HpB].
  { rewrite Forall_forall in Hall.
    split; apply Hall; by eapply list_elem_of_lookup_2. }
  apply before_ge; [done..|].
  rewrite sort_Permutation in Hall.
  eapply (StronglySorted_lookup (JS.before compare)), HB; [|exact Hij|exact HA].
  apply (sort_StronglySorted compare parseable); [| |done].
  - intros x y Hx Hy Hxy. apply before_ge; [done..|].
    destruct (parsed_date x) as [|dx] eqn:Ex; [done|].
    destruct (parsed_date y) as [|dy] eqn:Ey; [done|].
    assert (¬ JS.ge (JS.Num dx) (JS.Num dy)) as Hn.
    { intros Hge. apply Hxy, before_ge; [done..|]. by rewrite Ex, Ey. }
    simpl in *. lia.
  - intros x y z Hx Hy Hz Hxy%before_ge Hyz%before_ge; [|done..].
    apply before_ge; [done..|].
    destruct (parsed_date x), (parsed_date y), (parsed_date z); simpl in *;
      try done. lia.
Qed.

(** ** One record per directory *)

(** The record of a directory is among the posts returned. *)
Lemma post_of_directory_returned fs dirs unsorted dir fileContent data :
  Forall2 (post_of_directory fs) dirs unsorted →
  dir ∈ dirs →
  readFile fs (index_md dir) = JS.Resolved fileContent →
  matter fileContent = Some data →
  JS.spread {[ "slug" := dir ]} data ∈ JS.sort compare unsorted.
Proof.
  intros Hposts [k Hk]%list_elem_of_lookup Hfile Hdata.
  rewrite sort_Permutation.
  destruct (Forall2_lookup_l _ _ _ _ _ Hposts Hk)
    as (post & Hpost & c & d & Hc & Hd & ->).
  apply list_elem_of_lookup_2 in Hpost.
  assert (c = fileContent) as -> by congruence.
  assert (d = data) as -> by congruence.
  done.
Qed.

(** C4, as the code has it. When the [index.md] of each of the N
    directories of [./public/] can be read and parsed, [getPosts] returns N
    records, one per directory (entries that are no directories are left
    out): the front matter of the directory spread over its name as [slug].
    The [slug] of the record is the name of the directory whenever the front
    matter has no [slug] of its own. *)
Theorem getPosts_one_record_per_directory fs entries :
  readdir fs "./public/" = JS.Resolved entries →
  (∀ dir, dir ∈ directories entries →
     ∃ fileContent data,
       readFile fs (index_md dir) = JS.Resolved fileContent ∧
       matter fileContent = Some data) →
  (∀ name, name ∈ directories entries ↔
           {| Dirent.name := name; Dirent.isDirectory := true |} ∈ entries) ∧
  ∃ posts unsorted,
    getPosts fs = JS.Resolved posts ∧
    length posts = length (directories entries) ∧
    posts ≡ₚ unsorted ∧
    Forall2
      (λ dir post, ∃ fileContent data,
         readFile fs (index_md dir) = JS.Resolved fileContent ∧
         matter fileContent = Some data ∧
         post = JS.spread {[ "slug" := dir ]} data ∧
         (data !! "slug" = None → post !! "slug" = Some dir))
      (directories entries) unsorted.
Proof.
  intros Hentries Hdirs. split; [intros name; apply elem_of_directories|].
  destruct (getPosts_returns fs entries Hentries Hdirs) as (unsorted & Hposts & Hget).
  exists (JS.sort compare unsorted), unsorted. split; [done|].
  split; [|split; [apply sort_Permutation|]].
  - rewrite sort_length. symmetry. by eapply Forall2_length.
  - eapply Forall2_impl; [exact Hposts|].
    intros dir post (fileContent & data & Hfile & Hdata & ->).
    exists fileContent, data. repeat split; [done..|].
    intros Hslug. by rewrite spread_slug, Hslug.
Qed.

(** C10. When the front matter of a post has a key [slug], the record that
    [getPosts] returns for it carries the value of the front matter as its
    [slug], and not the name of the directory: the front matter is spread
    after the [slug] taken from the directory. *)
Theorem front_matter_slug_wins fs entries posts dir fileContent data slug :
  getPosts fs = JS.Resolved posts →
  readdir fs "./public/" = JS.Resolved entries →
  dir ∈ directories entries →
  readFile fs (index_md dir) = JS.Resolved fileContent →
  matter fileContent = Some data →
  data !! "slug" = Some slug →
  ∃ post,
    post ∈ posts ∧
    post = JS.spread {[ "slug" := dir ]} data ∧
    post !! "slug" = Some slug.
Proof.
  intros (entries' & unsorted & Hentries' & Hposts & ->)%getPosts_Resolved
    Hentries Hdir Hfile Hdata Hslug.
  assert (entries' = entries) as -> by congruence.
  exists (JS.spread {[ "slug" := dir ]} data). split; [|split; [done|]].
  - by eapply post_of_directory_returned.
  - by rewrite spread_slug, Hslug.
Qed.

(** C3, as the code has it. [getPosts] does not look at the front matter it
    spreads: when every [index.md] can be read and parsed, it returns the
    collection, and the record of a directory whose front matter lacks
    [title], [date] or [spoiler] is in it, without that field. *)
Theorem getPosts_keeps_posts_without_required_fields
    fs entries dir fileContent data field :
  readdir fs "./public/" = JS.Resolved entries →
  (∀ dir, dir ∈ directories entries →
     ∃ fileContent data,
       readFile fs (index_md dir) = JS.Resolved fileContent ∧
       matter fileContent = Some data) →
  dir ∈ directories entries →
  readFile fs (index_md dir) = JS.Resolved fileContent →
  matter fileContent = Some data →
  field ∈ ["title"; "date"; "spoiler"] →
  data !! field = None →
  ∃ posts post,
    getPosts fs = JS.Resolved posts ∧
    post ∈ posts ∧
    post = JS.spread {[ "slug" := dir ]} data ∧
    post !! field = None.
Proof.
  intros Hentries Hdirs Hdir Hfile Hdata Hfield Hmissing.
  destruct (getPosts_returns fs entries Hentries Hdirs) as (unsorted & Hposts & Hget).
  exists (JS.sort compare unsorted), (JS.spread {[ "slug" := dir ]} data).
  split; [done|]. split; [by eapply post_of_directory_returned|].
  split; [done|]. rewrite spread_other; [done|].
  intros ->.
  repeat (apply elem_of_cons in Hfield as [Hfield|Hfield]; [discriminate Hfield|]).
  by apply elem_of_nil in Hfield.
Qed.

(** C8. When one directory of [./public/] has no [index.md] that can be
    read, [getPosts] is rejected as a whole: it neither skips the directory
    nor returns the posts of the others. *)
Theorem getPosts_rejects_missing_index_md fs entries dir reason :
  readdir fs "./public/" = JS.Resolved entries →
  dir ∈ directories entries →
  readFile fs (index_md dir) = JS.Rejected reason →
  (∃ reason', getPosts fs = JS.Rejected reason') ∧
  ∀ posts, getPosts fs ≠ JS.Resolved posts.
Proof.
  intros Hentries Hdir Hfile.
  assert (∃ reason', getPosts fs = JS.Rejected reason') as [reason' Hget].
  { unfold Posts.getPosts. rewrite Hentries. cbn [JS.await].
    destruct (Promise_all_Rejected (λ dir, readFile fs (index_md dir))
                (directories entries) dir reason Hdir Hfile) as [reason' ->].
    by exists reason'. }
  split; [by exists reason'|]. intros posts. by rewrite Hget.
Qed.

(** ** The feed *)

(** The loop of [generateFeed] appends one item per post and leaves the
    options alone. *)
Lemma add_posts_spec feed posts :
  Feed.items (add_posts Date_parse feed posts)
  = Feed.items feed ++ (item_of <$> posts) ∧
  Feed.options (add_posts Date_parse feed posts) = Feed.options feed.
Proof.
  revert feed. induction posts as [|post posts IH]; intros feed; simpl.
  { by rewrite app_nil_r. }
  destruct (IH (Feed.addItem feed (item_of post))) as [-> ->]. simpl.
  by rewrite <-app_assoc.
Qed.

Lemma generateFeed_unfold fs :
  generateFeed fs =
  (let! posts := getPosts fs in
   JS.Resolved {| Feed.options := feedOptions; Feed.items := item_of <$> posts |}).
Proof.
  unfold Posts.generateFeed.
  destruct (getPosts fs) as [posts|]; [|done]. cbn [JS.await]. f_equal.
  destruct (add_posts_spec (Feed.new feedOptions) posts) as [Hitems Hoptions].
  destruct (add_posts _ _ _) as [options items]. simpl in *. by subst.
Qed.

(** Every post [getPosts] returns has a [slug]. *)
Lemma getPosts_slug fs posts post :
  getPosts fs = JS.Resolved posts → post ∈ posts → is_Some (post !! "slug").
Proof.
  intros (entries & unsorted & _ & Hposts & ->)%getPosts_Resolved Hin.
  rewrite sort_Permutation in Hin.
  apply list_elem_of_lookup in Hin as [k Hk].
  destruct (Forall2_lookup_r _ _ _ _ _ Hposts Hk)
    as (dir & _ & c & data & _ & _ & ->).
  rewrite spread_slug. by eexists.
Qed.

(** C5. The feed has one item per post, in the order of the posts:
    [generateFeed] maps the list it gets from [getPosts], it neither sorts
    it again nor leaves out or repeats a post. *)
Theorem generateFeed_items_follow_posts fs posts :
  getPosts fs = JS.Resolved posts →
  ∃ feed,
    generateFeed fs = JS.Resolved feed ∧
    Feed.items feed = item_of <$> posts ∧
    length (Feed.items feed) = length posts ∧
    ∀ i, Feed.items feed !! i = item_of <$> posts !! i.
Proof.
  intros Hposts. rewrite generateFeed_unfold, Hposts. cbn [JS.await].
  eexists. split; [done|]. simpl. split; [done|].
  split; [apply length_fmap|]. intros i. apply list_lookup_fmap.
Qed.

(** C6. The item of a post has, as [id] and as [link], the site URL
    followed by the slug of the post and a slash; its title is the title of
    the post, its description the spoiler, its date the date of the post. *)
Theorem feed_item_of_post fs posts feed i post :
  getPosts fs = JS.Resolved posts →
  generateFeed fs = JS.Resolved feed →
  posts !! i = Some post →
  ∃ slug item,
    post !! "slug" = Some slug ∧
    Feed.items feed !! i = Some item ∧
    Item.id item = site_url +:+ slug +:+ "/" ∧
    Item.link item = site_url +:+ slug +:+ "/" ∧
    Item.title item = post !! "title" ∧
    Item.description item = post !! "spoiler" ∧
    Item.date item = parsed_date post.
Proof.
  intros Hposts Hfeed Hpost.
  destruct (getPosts_slug fs posts post Hposts) as [slug Hslug].
  { by eapply list_elem_of_lookup_2. }
  rewrite generateFeed_unfold, Hposts in Hfeed. cbn [JS.await] in Hfeed.
  injection Hfeed as <-.
  exists slug, (item_of post). split; [done|]. split.
  { simpl. by rewrite list_lookup_fmap, Hpost. }
  unfold Posts.item_of. simpl. by rewrite Hslug.
Qed.

End PostsFacts.

(** * The pipeline at work

    The theorems above hold for every [Date.parse] and every front-matter
    parser. Here they are applied to the directory trees of [Reference],
    with its [Date.parse] and its parser; the runs that show what the code
    does not guarantee are here too. *)

#[local] Abbreviation run_getPosts :=
  (getPosts Reference.Date_parse Reference.matter).
#[local] Abbreviation run_generateFeed :=
  (generateFeed Reference.Date_parse Reference.matter).
#[local] Abbreviation run_compare := (compare Reference.Date_parse).
#[local] Abbreviation run_parsed_date := (parsed_date Reference.Date_parse).

Ltac each_directory Hin :=
  vm_compute in Hin;
  repeat (apply elem_of_cons in Hin as [->|Hin]);
  [..|by apply elem_of_nil in Hin].

Ltac evaluate := vm_compute; reflexivity.

Example Date_parse_date_only :
  Reference.Date_parse "1970-01-02" = JS.Num 86400000 ∧
  Reference.Date_parse "2024-02-29" = JS.Num 1709164800000 ∧
  Reference.Date_parse "2023-02-29" = JS.NaN ∧
  Reference.Date_parse "TBA" = JS.NaN.
Proof. repeat split; evaluate. Qed.

Example matter_without_front_matter :
  Reference.matter "Just a text." = Some ∅.
Proof. evaluate. Qed.

Example matter_front_matter :
  Reference.matter Reference.onboarding_md
  = Some (delete "slug" Reference.onboarding).
Proof. evaluate. Qed.

(** A run that descends is reversed as a whole, one that ascends is kept
    and the rest is inserted into it. *)
Example sort_numbers :
  JS.sort Z.sub [5; 4; 3; 7; 1] = [1; 3; 4; 5; 7] ∧
  JS.sort Z.sub [1; 3; 2; 5; 4] = [1; 2; 3; 4; 5].
Proof. split; evaluate. Qed.

(** Two posts of the same date: the comparator answers -1 both ways, and
    the sort swaps them. *)
Example sort_same_date :
  JS.sort run_compare [Reference.newer; <["slug" := "twin"]> Reference.newer]
  = [<["slug" := "twin"]> Reference.newer; Reference.newer].
Proof. evaluate. Qed.

Lemma blog_posts :
  run_getPosts Reference.blog
  = JS.Resolved
      [Reference.onboarding; Reference.code_review;
       Reference.component_architecture].
Proof. evaluate. Qed.

Lemma blog_readable dir :
  dir ∈ directories Reference.blog_entries →
  ∃ fileContent data,
    readFile Reference.blog (index_md dir) = JS.Resolved fileContent ∧
    Reference.matter fileContent = Some data.
Proof.
  intros Hin. each_directory Hin; eexists _, _; split; evaluate.
Qed.

Lemma getPosts_descending_dates_witness :
  Forall (parseable Reference.Date_parse)
    [Reference.onboarding; Reference.code_review;
     Reference.component_architecture] ∧
  JS.ge (run_parsed_date Reference.onboarding)
        (run_parsed_date Reference.component_architecture).
Proof.
  assert (Forall (parseable Reference.Date_parse)
            [Reference.onboarding; Reference.code_review;
             Reference.component_architecture]) as Hall.
  { repeat constructor; vm_compute; discriminate. }
  split; [exact Hall|].
  apply (getPosts_descending_dates Reference.Date_parse Reference.matter
           Reference.blog _ blog_posts Hall 0%nat 2%nat); [lia|done|done].
Defined.

(** C1, as stated, fails: [winter] and [summer] both have a date that
    parses, [winter] stands before [summer] in what [getPosts] returns, and
    its date is the earlier one. The third post, whose date does not parse,
    is what the theorem above rules out. *)
Lemma getPosts_order_broken_by_unparseable_date :
  run_getPosts Reference.blog_with_unparseable_date
  = JS.Resolved [Reference.winter; Reference.someday; Reference.summer] ∧
  run_parsed_date Reference.winter = JS.Num 1704067200000 ∧
  run_parsed_date Reference.someday = JS.NaN ∧
  run_parsed_date Reference.summer = JS.Num 1717200000000 ∧
  ¬ JS.ge (run_parsed_date Reference.winter) (run_parsed_date Reference.summer).
Proof.
  split; [evaluate|]. split; [evaluate|]. split; [evaluate|]. split; [evaluate|].
  vm_compute. intros Hge. by apply Hge.
Qed.

(** C2, as stated, fails: the record without a date comes out before the
    newer post in one run and after it in the other, though both runs sort
    the same three records; and in the first run the older post comes out
    before the newer one. No number in the place of the missing date
    explains the answers of the comparator. *)
Lemma unparseable_date_has_no_fixed_position :
  run_parsed_date Reference.undated = JS.NaN ∧
  JS.sort run_compare [Reference.newer; Reference.undated; Reference.older]
  = [Reference.older; Reference.undated; Reference.newer] ∧
  JS.sort run_compare [Reference.older; Reference.undated; Reference.newer]
  = [Reference.newer; Reference.undated; Reference.older] ∧
  ¬ ∃ sentinel : Z,
      ∀ a b,
        run_compare a b
        = if match run_parsed_date a with JS.Num ms => ms | JS.NaN => sentinel end
             <? match run_parsed_date b with JS.Num ms => ms | JS.NaN => sentinel end
          then 1 else -1.
Proof.
  split; [evaluate|]. split; [evaluate|]. split; [evaluate|].
  intros [sentinel Hsentinel].
  pose proof (Hsentinel Reference.undated Reference.newer) as Hnewer.
  pose proof (Hsentinel Reference.older Reference.undated) as Holder.
  assert (run_parsed_date Reference.undated = JS.NaN) as Eundated by evaluate.
  assert (run_parsed_date Reference.newer = JS.Num 1717200000000) as Enewer
    by evaluate.
  assert (run_parsed_date Reference.older = JS.Num 1704067200000) as Eolder
    by evaluate.
  assert (run_compare Reference.undated Reference.newer = -1) as Cnewer
    by evaluate.
  assert (run_compare Reference.older Reference.undated = -1) as Colder
    by evaluate.
  rewrite Cnewer, Eundated, Enewer in Hnewer.
  rewrite Colder, Eundated, Eolder in Holder.
  destruct (Z.ltb_spec sentinel 1717200000000); [discriminate Hnewer|].
  destruct (Z.ltb_spec 1704067200000 sentinel); [discriminate Holder|].
  lia.
Qed.

Lemma getPosts_one_record_per_directory_witness :
  length (directories Reference.blog_entries) = 3%nat ∧
  ((∀ name, name ∈ directories Reference.blog_entries ↔
            {| Dirent.name := name; Dirent.isDirectory := true |}
            ∈ Reference.blog_entries) ∧
   ∃ posts unsorted,
     run_getPosts Reference.blog = JS.Resolved posts ∧
     length posts = length (directories Reference.blog_entries) ∧
     posts ≡ₚ unsorted ∧
     Forall2
       (λ dir post, ∃ fileContent data,
          readFile Reference.blog (index_md dir) = JS.Resolved fileContent ∧
          Reference.matter fileContent = Some data ∧
          post = JS.spread {[ "slug" := dir ]} data ∧
          (data !! "slug" = None → post !! "slug" = Some dir))
       (directories Reference.blog_entries) unsorted).
Proof.
  split; [reflexivity|].
  apply (getPosts_one_record_per_directory Reference.Date_parse
           Reference.matter Reference.blog Reference.blog_entries).
  - reflexivity.
  - exact blog_readable.
Defined.

(** C4, as stated, fails: the directory is [hello-world], the slug of its
    record is [greetings]. *)
Lemma getPosts_slug_is_not_directory_name :
  directories [Reference.dir "hello-world"] = ["hello-world"] ∧
  ∃ post,
    run_getPosts Reference.blog_with_renamed_post = JS.Resolved [post] ∧
    post !! "slug" = Some "greetings" ∧
    post !! "slug" ≠ Some "hello-world".
Proof.
  split; [reflexivity|]. eexists. split; [evaluate|].
  split; [evaluate|]. vm_compute. discriminate.
Qed.

Lemma front_matter_slug_wins_witness :
  Reference.matter Reference.renamed_md
  = Some {[ "title" := "Hello"; "date" := "2024-03-01"; "spoiler" := "Hi";
            "slug" := "greetings" ]} ∧
  ∃ post,
    post ∈ [ {[ "title" := "Hello"; "date" := "2024-03-01"; "spoiler" := "Hi";
                "slug" := "greetings" ]} : JS.object ] ∧
    post = JS.spread {[ "slug" := "hello-world" ]}
             {[ "title" := "Hello"; "date" := "2024-03-01"; "spoiler" := "Hi";
                "slug" := "greetings" ]} ∧
    post !! "slug" = Some "greetings".
Proof.
  assert (Reference.matter Reference.renamed_md
          = Some {[ "title" := "Hello"; "date" := "2024-03-01";
                    "spoiler" := "Hi"; "slug" := "greetings" ]}) as Hdata
    by evaluate.
  split; [exact Hdata|].
  apply (front_matter_slug_wins Reference.Date_parse Reference.matter
           Reference.blog_with_renamed_post [Reference.dir "hello-world"] _
           "hello-world" Reference.renamed_md _ "greetings").
  - evaluate.
  - reflexivity.
  - vm_compute. left.
  - reflexivity.
  - exact Hdata.
  - evaluate.
Defined.

Lemma draft_readable dir :
  dir ∈ directories [Reference.dir "notes-for-a-later-post"] →
  ∃ fileContent data,
    readFile Reference.blog_with_draft (index_md dir) = JS.Resolved fileContent ∧
    Reference.matter fileContent = Some data.
Proof.
  intros Hin. each_directory Hin; eexists _, _; split; evaluate.
Qed.

Lemma getPosts_keeps_posts_without_required_fields_witness :
  Reference.matter Reference.draft_md
  = Some {[ "title" := "Notes for a later post"; "date" := "2026-02-01" ]} ∧
  ∃ posts post,
    run_getPosts Reference.blog_with_draft = JS.Resolved posts ∧
    post ∈ posts ∧
    post = JS.spread {[ "slug" := "notes-for-a-later-post" ]}
             {[ "title" := "Notes for a later post"; "date" := "2026-02-01" ]} ∧
    post !! "spoiler" = None.
Proof.
  assert (Reference.matter Reference.draft_md
          = Some {[ "title" := "Notes for a later post";
                    "date" := "2026-02-01" ]}) as Hdata by evaluate.
  split; [exact Hdata|].
  apply (getPosts_keeps_posts_without_required_fields Reference.Date_parse
           Reference.matter Reference.blog_with_draft
           [Reference.dir "notes-for-a-later-post"]
           "notes-for-a-later-post" Reference.draft_md).
  - reflexivity.
  - exact draft_readable.
  - vm_compute. left.
  - reflexivity.
  - exact Hdata.
  - do 2 right. left.
  - evaluate.
Defined.

(** C3, as stated, fails: the front matter of the only post has no
    [spoiler], and [getPosts] returns its record all the same. *)
Lemma getPosts_returns_post_without_spoiler :
  Reference.matter Reference.draft_md
  = Some {[ "title" := "Notes for a later post"; "date" := "2026-02-01" ]} ∧
  run_getPosts Reference.blog_with_draft
  = JS.Resolved
      [ {[ "slug" := "notes-for-a-later-post";
           "title" := "Notes for a later post";
           "date" := "2026-02-01" ]} ] ∧
  ({[ "slug" := "notes-for-a-later-post";
      "title" := "Notes for a later post";
      "date" := "2026-02-01" ]} : JS.object) !! "spoiler" = None.
Proof. repeat split; evaluate. Qed.

Lemma getPosts_rejects_missing_index_md_witness :
  readFile Reference.blog_with_translation (index_md Reference.truthy_and_falsy)
  = JS.Rejected (JS.ENOENT (index_md Reference.truthy_and_falsy)) ∧
  (∃ reason, run_getPosts Reference.blog_with_translation = JS.Rejected reason) ∧
  ∀ posts, run_getPosts Reference.blog_with_translation ≠ JS.Resolved posts.
Proof.
  assert (readFile Reference.blog_with_translation
            (index_md Reference.truthy_and_falsy)
          = JS.Rejected (JS.ENOENT (index_md Reference.truthy_and_falsy)))
    as Hfile by evaluate.
  split; [exact Hfile|].
  apply (getPosts_rejects_missing_index_md Reference.Date_parse Reference.matter
           Reference.blog_with_translation
           (Reference.blog_entries ++ [Reference.dir Reference.truthy_and_falsy])
           Reference.truthy_and_falsy
           (JS.ENOENT (index_md Reference.truthy_and_falsy))).
  - reflexivity.
  - vm_compute. do 3 right. left.
  - exact Hfile.
Defined.

Lemma generateFeed_items_follow_posts_witness :
  ∃ feed,
    run_generateFeed Reference.blog = JS.Resolved feed ∧
    Feed.items feed
    = item_of Reference.Date_parse
        <$> [Reference.onboarding; Reference.code_review;
             Reference.component_architecture] ∧
    length (Feed.items feed) = 3%nat ∧
    ∀ i, Feed.items feed !! i
         = item_of Reference.Date_parse
             <$> [Reference.onboarding; Reference.code_review;
                  Reference.component_architecture] !! i.
Proof.
  exact (generateFeed_items_follow_posts Reference.Date_parse Reference.matter
           Reference.blog _ blog_posts).
Defined.

Lemma blog_feed :
  run_generateFeed Reference.blog
  = JS.Resolved
      {| Feed.options := feedOptions;
         Feed.items :=
           item_of Reference.Date_parse
             <$> [Reference.onboarding; Reference.code_review;
                  Reference.component_architecture] |}.
Proof. evaluate. Qed.

Lemma feed_item_of_post_witness :
  ∃ slug item,
    Reference.onboarding !! "slug" = Some slug ∧
    (item_of Reference.Date_parse
       <$> [Reference.onboarding; Reference.code_review;
            Reference.component_architecture]) !! 0%nat = Some item ∧
    Item.id item = site_url +:+ slug +:+ "/" ∧
    Item.link item = site_url +:+ slug +:+ "/" ∧
    Item.title item = Reference.onboarding !! "title" ∧
    Item.description item = Reference.onboarding !! "spoiler" ∧
    Item.date item = run_parsed_date Reference.onboarding.
Proof.
  exact (feed_item_of_post Reference.Date_parse Reference.matter Reference.blog
           _ _ 0%nat Reference.onboarding blog_posts blog_feed eq_refl).
Defined.

Lemma compare_never_zero_witness :
  run_parsed_date Reference.undated = JS.NaN ∧
  run_compare Reference.undated Reference.newer = -1 ∧
  run_compare Reference.newer Reference.undated = -1.
Proof.
  assert (run_parsed_date Reference.undated = JS.NaN) as HNaN by evaluate.
  split; [exact HNaN|].
  destruct (compare_never_zero Reference.Date_parse
              Reference.undated Reference.newer) as (_ & _ & _ & _ & Hboth).
  apply Hboth. left. exact HNaN.
Defined.

Lemma sort_with_unparseable_dates_witness :
  Reference.undated !! "date" = None ∧
  run_parsed_date Reference.undated = JS.NaN ∧
  JS.sort run_compare [Reference.undated; Reference.newer]
  = [Reference.newer; Reference.undated].
Proof.
  assert (Reference.undated !! "date" = None) as Hdate by evaluate.
  destruct (sort_with_unparseable_dates Reference.Date_parse)
    as (Hmissing & _ & _ & Hswap).
  split; [exact Hdate|]. split; [exact (Hmissing _ Hdate)|].
  apply Hswap. left. exact (Hmissing _ Hdate).
Defined.

(** * More about [getPosts] and [generateFeed] *)

Section PostsErrors.
Variable Date_parse : string → JS.number.
Variable matter : string → option JS.object.

#[local] Abbreviation compare := (compare Date_parse).
#[local] Abbreviation getPosts := (getPosts Date_parse matter).
#[local] Abbreviation generateFeed := (generateFeed Date_parse matter).
#[local] Abbreviation post_of_directory := (post_of_directory matter).

(** The rejection of [Promise.all] is the rejection of one of its
    promises. *)
Lemma Promise_all_Rejected_inv {A B : Type} (f : A → JS.promise B) l reason :
  JS.Promise_all (f <$> l) = JS.Rejected reason →
  ∃ x, x ∈ l ∧ f x = JS.Rejected reason.
Proof.
  induction l as [|x l IH]; [done|].
  rewrite fmap_cons. cbn [JS.Promise_all]. intros H.
  destruct (f x) as [y|reason'] eqn:Hx; cbn [JS.await] in H.
  - destruct (JS.Promise_all (f <$> l)) as [ys|reason'] eqn:Hl;
      cbn [JS.await] in H; [discriminate H|].
    injection H as ->. destruct IH as (x' & Hin & Hx'); [done|].
    exists x'. split; [by right|done].
  - injection H as ->. exists x. split; [by left|done].
Qed.

(** A throw in [dirs.map] is the throw of one call of the callback. *)
Lemma map_indexed_Rejected_inv {A B : Type}
    (callback : A → nat → JS.promise B) i l reason :
  map_indexed callback i l = JS.Rejected reason →
  ∃ k x, l !! k = Some x ∧ callback x (i + k)%nat = JS.Rejected reason.
Proof.
  revert i. induction l as [|x l IH]; intros i; [done|].
  cbn [map_indexed]. intros H.
  destruct (callback x i) as [y|reason'] eqn:Hx; cbn [JS.await] in H.
  - destruct (map_indexed callback (S i) l) as [ys|reason'] eqn:Hl;
      cbn [JS.await] in H; [discriminate H|].
    injection H as ->. destruct (IH (S i)) as (k & x' & Hk & Hx'); [done|].
    exists (S k), x'. split; [done|]. by rewrite Nat.add_succ_r.
  - injection H as ->. exists 0%nat, x. split; [done|]. by rewrite Nat.add_0_r.
Qed.

Lemma readable_fileContents fs (dirs : list string) :
  (∀ dir, dir ∈ dirs → ∃ c, readFile fs (index_md dir) = JS.Resolved c) →
  ∃ fileContents,
    Forall2 (λ dir c, readFile fs (index_md dir) = JS.Resolved c) dirs fileContents.
Proof.
  induction dirs as [|dir dirs IH]; intros Hread.
  { exists []. constructor. }
  destruct IH as [fileContents IH].
  { intros dir' Hin. apply Hread. by right. }
  destruct (Hread dir) as [c Hc]; [by left|].
  exists (c :: fileContents). by constructor.
Qed.

(** X1. [getPosts] resolves exactly when [./public/] can be listed and the
    [index.md] of every directory listed can be read and parsed. *)
Theorem getPosts_resolves_iff fs :
  (∃ posts, getPosts fs = JS.Resolved posts) ↔
  ∃ entries,
    readdir fs "./public/" = JS.Resolved entries ∧
    ∀ dir, dir ∈ directories entries →
      ∃ fileContent data,
        readFile fs (index_md dir) = JS.Resolved fileContent ∧
        matter fileContent = Some data.
Proof.
  split.
  - intros [posts (entries & unsorted & Hentries & Hposts & _)%getPosts_Resolved].
    exists entries. split; [done|].
    intros dir [k Hk]%list_elem_of_lookup.
    destruct (Forall2_lookup_l _ _ _ _ _ Hposts Hk)
      as (post & _ & c & data & Hc & Hdata & _).
    by exists c, data.
  - intros (entries & Hentries & Hdirs).
    destruct (getPosts_returns Date_parse matter fs entries Hentries Hdirs)
      as (unsorted & _ & Hget).
    by eexists.
Qed.

(** X2. The files are all read before any of them is parsed: when the
    [index.md] of some directory cannot be read, [getPosts] is rejected with
    the rejection of a read, whatever the front matter of the other posts
    is like. *)
Theorem getPosts_read_errors_come_first fs entries dir reason :
  readdir fs "./public/" = JS.Resolved entries →
  dir ∈ directories entries →
  readFile fs (index_md dir) = JS.Rejected reason →
  ∃ dir' reason',
    getPosts fs = JS.Rejected reason' ∧
    dir' ∈ directories entries ∧
    readFile fs (index_md dir') = JS.Rejected reason'.
Proof.
  intros Hentries Hdir Hfile.
  destruct (Promise_all_Rejected (λ dir, readFile fs (index_md dir))
              (directories entries) dir reason Hdir Hfile) as [reason' Hall].
  destruct (Promise_all_Rejected_inv _ _ _ Hall) as (dir' & Hdir' & Hfile').
  exists dir', reason'. split; [|done].
  unfold Posts.getPosts. rewrite Hentries. cbn [JS.await]. by rewrite Hall.
Qed.

(** X3. When every [index.md] can be read and the front matter of one of
    them cannot be parsed, [getPosts] is rejected with the exception of the
    parser on the content of such a file: no post is returned, not even
    those that parse. *)
Theorem getPosts_rejects_unparseable_front_matter fs entries dir fileContent :
  readdir fs "./public/" = JS.Resolved entries →
  (∀ dir, dir ∈ directories entries →
     ∃ c, readFile fs (index_md dir) = JS.Resolved c) →
  dir ∈ directories entries →
  readFile fs (index_md dir) = JS.Resolved fileContent →
  matter fileContent = None →
  ∃ dir' fileContent',
    getPosts fs = JS.Rejected (JS.YAMLException fileContent') ∧
    dir' ∈ directories entries ∧
    readFile fs (index_md dir') = JS.Resolved fileContent' ∧
    matter fileContent' = None.
Proof.
  intros Hentries Hread Hdir Hfile Hmatter.
  destruct (readable_fileContents fs _ Hread) as [fileContents Hcontents].
  pose proof Hcontents as Hall. apply Promise_all_Resolved in Hall.
  destruct (getPosts fs) as [posts|reason] eqn:Hget.
  { apply getPosts_Resolved in Hget as (entries' & unsorted & He & Hposts & _).
    assert (entries' = entries) as -> by congruence.
    apply list_elem_of_lookup in Hdir as [k Hk].
    destruct (Forall2_lookup_l _ _ _ _ _ Hposts Hk)
      as (post & _ & c & data & Hc & Hdata & _).
    congruence. }
  unfold Posts.getPosts in Hget. rewrite Hentries in Hget.
  cbn [JS.await] in Hget. rewrite Hall in Hget. cbn [JS.await] in Hget.
  destruct (map_indexed _ _ _) as [unsorted|reason'] eqn:Hmap;
    cbn [JS.await] in Hget; [discriminate Hget|].
  injection Hget as ->.
  apply map_indexed_Rejected_inv in Hmap as (k & dir' & Hk & Hmake).
  destruct (Forall2_lookup_l _ _ _ _ _ Hcontents Hk) as (c & Hc & Hfile').
  unfold make_post in Hmake. simpl in Hmake. rewrite Hc in Hmake.
  destruct (matter c) as [data|] eqn:Hdata; [done|].
  injection Hmake as <-. exists dir', c.
  split; [done|]. split; [by eapply list_elem_of_lookup_2|done].
Qed.

Lemma directories_of_files entries :
  Forall (λ entry, Dirent.isDirectory entry = false) entries →
  directories entries = [].
Proof.
  unfold directories. induction 1 as [|entry entries Hentry _ IH]; [done|].
  rewrite filter_cons_False; [done|]. by rewrite Hentry.
Qed.

(** X5. A root that lists no directory gives no post and an empty feed,
    and no file is read for it. *)
Theorem getPosts_without_directories fs entries :
  readdir fs "./public/" = JS.Resolved entries →
  Forall (λ entry, Dirent.isDirectory entry = false) entries →
  getPosts fs = JS.Resolved [] ∧
  generateFeed fs
  = JS.Resolved {| Feed.options := feedOptions; Feed.items := [] |}.
Proof.
  intros Hentries Hfiles.
  pose proof (directories_of_files entries Hfiles) as Hdirs.
  assert (getPosts fs = JS.Resolved []) as Hget.
  { unfold Posts.getPosts. rewrite Hentries. cbn [JS.await]. by rewrite Hdirs. }
  split; [done|]. unfold Posts.generateFeed. by rewrite Hget.
Qed.
End PostsErrors.

Section PostsOrder.
Variable Date_parse : string → JS.number.
Variable matter : string → option JS.object.

#[local] Abbreviation compare := (compare Date_parse).
#[local] Abbreviation parsed_date := (parsed_date Date_parse).
#[local] Abbreviation parseable := (parseable Date_parse).
#[local] Abbreviation getPosts := (getPosts Date_parse matter).
#[local] Abbreviation generateFeed := (generateFeed Date_parse matter).
#[local] Abbreviation item_of := (item_of Date_parse).
#[local] Abbreviation post_of_directory := (post_of_directory matter).

(** The order of the dates, the most recent first. *)
#[local] Abbreviation not_earlier :=
  (λ a b : JS.object, JS.ge (parsed_date a) (parsed_date b)).

Lemma StronglySorted_weaken_on {A : Type} (P : A → Prop) (R1 R2 : relation A) l :
  (∀ x y, P x → P y → R1 x y → R2 x y) →
  Forall P l → StronglySorted R1 l → StronglySorted R2 l.
Proof.
  intros Himpl Hall Hsorted.
  induction Hsorted as [|x l _ IH Hx]; [constructor|].
  apply Forall_cons in Hall as [Px Hall].
  constructor; [by apply IH|].
  rewrite Forall_forall in *. intros y Hy. apply Himpl; auto.
Qed.

(** Sorting posts whose dates all parse puts every post before the posts
    of an earlier or equal date. *)
Lemma sort_compare_not_earlier posts :
  Forall parseable posts →
  StronglySorted not_earlier (JS.sort compare posts).
Proof.
  intros Hall.
  apply (StronglySorted_weaken_on parseable (JS.before compare)).
  - intros x y Hx Hy. by apply before_ge.
  - by rewrite sort_Permutation.
  - apply (sort_StronglySorted compare parseable); [| |done].
    + intros x y Hx Hy Hxy.
      apply (before_ge Date_parse); [done..|].
      assert (¬ not_earlier x y) as Hn.
      { intros Hge. by apply Hxy, (before_ge Date_parse). }
      unfold Posts.parseable in Hx, Hy. cbn beta in Hn.
      destruct (parsed_date x), (parsed_date y); simpl in *; try done. lia.
    + intros x y z Hx Hy Hz Hxy Hyz.
      apply (before_ge Date_parse) in Hxy, Hyz; [|done..].
      apply (before_ge Date_parse); [done..|].
      destruct (parsed_date x), (parsed_date y), (parsed_date z);
        simpl in *; try done. lia.
Qed.

(** Posts whose dates parse and differ have one order only, whatever the
    order in which they were read. *)
Lemma getPosts_listing_order fs1 fs2 entries1 entries2 posts :
  readdir fs1 "./public/" = JS.Resolved entries1 →
  readdir fs2 "./public/" = JS.Resolved entries2 →
  entries1 ≡ₚ entries2 →
  (∀ path, readFile fs1 path = readFile fs2 path) →
  getPosts fs1 = JS.Resolved posts →
  Forall parseable posts →
  (∀ a b, a ∈ posts → b ∈ posts → parsed_date a = parsed_date b → a = b) →
  getPosts fs2 = JS.Resolved posts.
Proof.
  intros H1 H2 Hperm Hfiles Hget Hall Hdistinct.
  apply getPosts_Resolved in Hget as (entries & unsorted1 & He & Hposts & ->).
  assert (entries = entries1) as -> by congruence.
  assert (directories entries1 ≡ₚ directories entries2) as Hdirs.
  { unfold directories. by rewrite Hperm. }
  destruct (Permutation_Forall2 Hdirs Hposts)
    as (unsorted2 & Hunsorted & Hposts2).
  apply getPosts_Resolved. exists entries2, unsorted2.
  split; [done|]. split.
  { eapply Forall2_impl; [exact Hposts2|].
    intros dir post (c & data & Hc & Hdata & ->).
    exists c, data. by rewrite <-Hfiles. }
  rewrite sort_Permutation in Hall.
  apply (StronglySorted_unique_strong not_earlier).
  - intros x1 x2 Hx1 Hx2 H12 H21. apply Hdistinct; [done| |].
    { rewrite sort_Permutation in Hx2 |- *. by rewrite Hunsorted. }
    destruct (parsed_date x1), (parsed_date x2); simpl in *; try done.
    f_equal. lia.
  - by apply sort_compare_not_earlier.
  - apply sort_compare_not_earlier. by rewrite <-Hunsorted.
  - by rewrite !sort_Permutation.
Qed.

(** X6. The order in which [readdir] lists the directories does not show
    in the result when every date parses and no two posts have the same
    date: a file system that lists the same entries in another order gives
    the same array of posts. *)
Theorem getPosts_independent_of_listing_order fs1 fs2 entries1 entries2 posts :
  readdir fs1 "./public/" = JS.Resolved entries1 →
  readdir fs2 "./public/" = JS.Resolved entries2 →
  entries1 ≡ₚ entries2 →
  (∀ path, readFile fs1 path = readFile fs2 path) →
  getPosts fs1 = JS.Resolved posts →
  Forall parseable posts →
  (∀ a b, a ∈ posts → b ∈ posts → parsed_date a = parsed_date b → a = b) →
  getPosts fs2 = JS.Resolved posts.
Proof. apply getPosts_listing_order. Qed.


(** X7. The items of the feed are in the order of their dates, the most
    recent first, when the date of every post parses. *)
Theorem feed_items_descending_dates fs posts feed :
  getPosts fs = JS.Resolved posts →
  Forall parseable posts →
  generateFeed fs = JS.Resolved feed →
  ∀ i j a b, (i < j)%nat →
    Feed.items feed !! i = Some a → Feed.items feed !! j = Some b →
    JS.ge (Item.date a) (Item.date b).
Proof.
  intros Hget Hall Hfeed i j a b Hij Ha Hb.
  rewrite generateFeed_unfold, Hget in Hfeed. cbn [JS.await] in Hfeed.
  injection Hfeed as <-. simpl in Ha, Hb.
  rewrite list_lookup_fmap in Ha, Hb.
  destruct (posts !! i) as [A|] eqn:HA; [|done].
  destruct (posts !! j) as [B|] eqn:HB; [|done].
  injection Ha as <-. injection Hb as <-. simpl.
  apply getPosts_Resolved in Hget as (entries & unsorted & _ & _ & ->).
  rewrite sort_Permutation in Hall.
  by eapply (StronglySorted_lookup not_earlier),
    HB; [apply sort_compare_not_earlier|..].
Qed.
End PostsOrder.

Section PostsRecords.
Variable Date_parse : string → JS.number.
Variable matter : string → option JS.object.

#[local] Abbreviation compare := (compare Date_parse).
#[local] Abbreviation getPosts := (getPosts Date_parse matter).
#[local] Abbreviation generateFeed := (generateFeed Date_parse matter).
#[local] Abbreviation item_of := (item_of Date_parse).
#[local] Abbreviation post_of_directory := (post_of_directory matter).

Lemma append_slash_inj : Inj (=) (=) (λ s : string, s +:+ "/").
Proof.
  intros s1. induction s1 as [|c1 s1 IH]; intros [|c2 s2] H; simpl in H.
  - done.
  - injection H as <- H. by destruct s2.
  - injection H as -> H. by destruct s1.
  - injection H as -> H. f_equal. by apply IH.
Qed.

(** X8. Apart from [slug], a record has the keys of its front matter and
    their values, known to the pipeline or not: every post returned comes
    from a directory whose front matter it repeats key by key. *)
Theorem getPosts_passes_front_matter_through fs entries posts post :
  readdir fs "./public/" = JS.Resolved entries →
  getPosts fs = JS.Resolved posts →
  post ∈ posts →
  ∃ dir fileContent data,
    dir ∈ directories entries ∧
    readFile fs (index_md dir) = JS.Resolved fileContent ∧
    matter fileContent = Some data ∧
    (∀ key, key ≠ "slug" → post !! key = data !! key) ∧
    dom post = dom data ∪ {[ "slug" ]}.
Proof.
  intros Hentries (entries' & unsorted & He & Hposts & ->)%getPosts_Resolved Hin.
  assert (entries' = entries) as -> by congruence.
  rewrite sort_Permutation in Hin.
  apply list_elem_of_lookup in Hin as [k Hk].
  destruct (Forall2_lookup_r _ _ _ _ _ Hposts Hk)
    as (dir & Hdir & c & data & Hc & Hdata & ->).
  exists dir, c, data. split; [by eapply list_elem_of_lookup_2|].
  split; [done|]. split; [done|]. split.
  - intros key Hkey. by apply spread_other.
  - unfold JS.spread. by rewrite dom_union_L, dom_singleton_L.
Qed.

Lemma ids_of_directories fs dirs unsorted :
  Forall2 (post_of_directory fs) dirs unsorted →
  (∀ dir fileContent data,
     dir ∈ dirs →
     readFile fs (index_md dir) = JS.Resolved fileContent →
     matter fileContent = Some data →
     data !! "slug" = None) →
  Item.id ∘ item_of <$> unsorted = (λ dir, site_url +:+ dir +:+ "/") <$> dirs.
Proof.
  induction 1 as [|dir post dirs unsorted Hpost _ IH]; intros Hslug; [done|].
  simpl. f_equal.
  - destruct Hpost as (c & data & Hc & Hdata & ->).
    rewrite spread_slug, (Hslug dir c data); [done|by left|done..].
  - apply IH. intros dir' c data Hin. apply Hslug. by right.
Qed.

(** X9. When the directories have different names and no front matter has
    a [slug] of its own, the items of the feed have different ids. *)
Theorem feed_ids_distinct fs entries feed :
  readdir fs "./public/" = JS.Resolved entries →
  NoDup (directories entries) →
  (∀ dir fileContent data,
     dir ∈ directories entries →
     readFile fs (index_md dir) = JS.Resolved fileContent →
     matter fileContent = Some data →
     data !! "slug" = None) →
  generateFeed fs = JS.Resolved feed →
  NoDup (Item.id <$> Feed.items feed).
Proof.
  intros Hentries Hnodup Hslug Hfeed.
  rewrite generateFeed_unfold in Hfeed.
  destruct (getPosts fs) as [posts|] eqn:Hget; [|done].
  cbn [JS.await] in Hfeed. injection Hfeed as <-. simpl.
  apply getPosts_Resolved in Hget as (entries' & unsorted & He & Hposts & ->).
  assert (entries' = entries) as -> by congruence.
  rewrite <-list_fmap_compose, sort_Permutation.
  rewrite (ids_of_directories fs _ _ Hposts Hslug).
  apply NoDup_fmap_2_strong; [|done].
  intros d1 d2 _ _ Heq. by apply (inj (String.app site_url)), append_slash_inj in Heq.
Qed.
End PostsRecords.

(** ** The same, at work *)

Lemma getPosts_read_errors_come_first_witness :
  Reference.matter Reference.broken_md = None ∧
  ∃ dir reason,
    run_getPosts Reference.blog_with_broken_and_missing_post
    = JS.Rejected reason ∧
    dir ∈ directories
            (Reference.dir "broken"
             :: Reference.blog_entries
                ++ [Reference.dir Reference.truthy_and_falsy]) ∧
    readFile Reference.blog_with_broken_and_missing_post (index_md dir)
    = JS.Rejected reason.
Proof.
  split; [evaluate|].
  apply (getPosts_read_errors_come_first Reference.Date_parse Reference.matter
           Reference.blog_with_broken_and_missing_post _
           Reference.truthy_and_falsy
           (JS.ENOENT (index_md Reference.truthy_and_falsy))).
  - reflexivity.
  - vm_compute. do 4 right. left.
  - evaluate.
Defined.

Lemma broken_blog_readable dir :
  dir ∈ directories (Reference.dir "broken" :: Reference.blog_entries) →
  ∃ c, readFile Reference.blog_with_broken_post (index_md dir) = JS.Resolved c.
Proof. intros Hin. each_directory Hin; eexists; evaluate. Qed.

Lemma getPosts_rejects_unparseable_front_matter_witness :
  ∃ dir fileContent,
    run_getPosts Reference.blog_with_broken_post
    = JS.Rejected (JS.YAMLException fileContent) ∧
    dir ∈ directories (Reference.dir "broken" :: Reference.blog_entries) ∧
    readFile Reference.blog_with_broken_post (index_md dir)
    = JS.Resolved fileContent ∧
    Reference.matter fileContent = None.
Proof.
  apply (getPosts_rejects_unparseable_front_matter Reference.Date_parse
           Reference.matter Reference.blog_with_broken_post
           (Reference.dir "broken" :: Reference.blog_entries)
           "broken" Reference.broken_md).
  - reflexivity.
  - exact broken_blog_readable.
  - vm_compute. left.
  - evaluate.
  - evaluate.
Defined.

Lemma getPosts_without_directories_witness :
  run_getPosts Reference.blog_without_posts = JS.Resolved [] ∧
  run_generateFeed Reference.blog_without_posts
  = JS.Resolved {| Feed.options := feedOptions; Feed.items := [] |}.
Proof.
  apply (getPosts_without_directories Reference.Date_parse Reference.matter
           Reference.blog_without_posts
           [Reference.file "avi.jpg"; Reference.file "favicon.ico"]).
  - reflexivity.
  - repeat constructor.
Defined.

Lemma blog_dates_parse :
  Forall (parseable Reference.Date_parse)
    [Reference.onboarding; Reference.code_review;
     Reference.component_architecture].
Proof. repeat constructor; vm_compute; discriminate. Qed.

Lemma blog_dates_differ a b :
  a ∈ [Reference.onboarding; Reference.code_review;
       Reference.component_architecture] →
  b ∈ [Reference.onboarding; Reference.code_review;
       Reference.component_architecture] →
  run_parsed_date a = run_parsed_date b → a = b.
Proof.
  intros Ha Hb.
  repeat (apply elem_of_cons in Ha as [->|Ha]);
    [..|by apply elem_of_nil in Ha];
    repeat (apply elem_of_cons in Hb as [->|Hb]);
    try (by apply elem_of_nil in Hb);
    try reflexivity; vm_compute; discriminate.
Qed.

Lemma getPosts_independent_of_listing_order_witness :
  reverse Reference.blog_entries ≡ₚ Reference.blog_entries ∧
  run_getPosts Reference.blog_listed_otherwise
  = JS.Resolved
      [Reference.onboarding; Reference.code_review;
       Reference.component_architecture].
Proof.
  split; [apply reverse_Permutation|].
  apply (getPosts_independent_of_listing_order Reference.Date_parse
           Reference.matter Reference.blog Reference.blog_listed_otherwise
           Reference.blog_entries (reverse Reference.blog_entries)).
  - reflexivity.
  - reflexivity.
  - symmetry. apply reverse_Permutation.
  - reflexivity.
  - exact blog_posts.
  - exact blog_dates_parse.
  - exact blog_dates_differ.
Defined.



Lemma feed_items_descending_dates_witness :
  JS.ge (Item.date (item_of Reference.Date_parse Reference.onboarding))
        (Item.date (item_of Reference.Date_parse Reference.code_review)).
Proof.
  apply (feed_items_descending_dates Reference.Date_parse Reference.matter
           Reference.blog _ _ blog_posts blog_dates_parse blog_feed
           0%nat 1%nat); [lia|reflexivity|reflexivity].
Defined.

Lemma getPosts_passes_front_matter_through_witness :
  Reference.talk !! "youtube" = Some "https://youtu.be/talk" ∧
  ∃ dir fileContent data,
    dir ∈ directories [Reference.dir "a-talk"] ∧
    readFile Reference.blog_with_talk (index_md dir)
    = JS.Resolved fileContent ∧
    Reference.matter fileContent = Some data ∧
    (∀ key, key ≠ "slug" → Reference.talk !! key = data !! key) ∧
    dom Reference.talk = dom data ∪ {[ "slug" ]}.
Proof.
  split; [evaluate|].
  apply (getPosts_passes_front_matter_through Reference.Date_parse
           Reference.matter Reference.blog_with_talk
           [Reference.dir "a-talk"] [Reference.talk] Reference.talk eq_refl).
  - evaluate.
  - left.
Defined.

Lemma blog_front_matter_without_slug dir fileContent data :
  dir ∈ directories Reference.blog_entries →
  readFile Reference.blog (index_md dir) = JS.Resolved fileContent →
  Reference.matter fileContent = Some data →
  data !! "slug" = None.
Proof.
  intros Hin. each_directory Hin; intros [= <-] [= <-]; evaluate.
Qed.

Lemma feed_ids_distinct_witness :
  NoDup (directories Reference.blog_entries) ∧
  NoDup (Item.id
           <$> (item_of Reference.Date_parse
                  <$> [Reference.onboarding; Reference.code_review;
                       Reference.component_architecture])).
Proof.
  assert (NoDup (directories Reference.blog_entries)) as Hnodup.
  { apply (bool_decide_unpack _). by vm_compute. }
  split; [exact Hnodup|].
  exact (feed_ids_distinct Reference.Date_parse Reference.matter Reference.blog
           Reference.blog_entries _ eq_refl Hnodup
           blog_front_matter_without_slug blog_feed).
Defined.

(** * The other readers of the posts: the image of a post, the home page *)

Section Readers.
Variable Date_parse : string → JS.number.
Variable matter : string → option JS.object.
Variable ImageResponse : Type.
Variable generatePostImage : option string → JS.promise ImageResponse.
Variable toLocaleDateString : JS.number → string.

#[local] Abbreviation getPosts := (getPosts Date_parse matter).
#[local] Abbreviation generateFeed := (generateFeed Date_parse matter).
#[local] Abbreviation Image := (OgImage.Image matter ImageResponse generatePostImage).
#[local] Abbreviation Home := (Home.Home Date_parse matter toLocaleDateString).

(** X10. The image of a post is made from the title the post has in the
    list of [getPosts]: for every directory listed, when [getPosts]
    resolves, [Image] of the name of the directory is what
    [generatePostImage] returns for the title of the record of that
    directory, whether or not the front matter has a title or a [slug]. *)
Theorem Image_of_listed_post fs entries posts dir :
  readdir fs "./public/" = JS.Resolved entries →
  getPosts fs = JS.Resolved posts →
  dir ∈ directories entries →
  ∃ post,
    post ∈ posts ∧
    post_of_directory matter fs dir post ∧
    Image fs dir = generatePostImage (post !! "title").
Proof.
  intros Hentries (entries' & unsorted & He & Hposts & ->)%getPosts_Resolved
    [k Hk]%list_elem_of_lookup.
  assert (entries' = entries) as -> by congruence.
  destruct (Forall2_lookup_l _ _ _ _ _ Hposts Hk)
    as (post & Hpost & c & data & Hc & Hdata & ->).
  exists (JS.spread {[ "slug" := dir ]} data). split.
  { rewrite sort_Permutation. by eapply list_elem_of_lookup_2. }
  split; [by exists c, data|].
  unfold OgImage.Image, OgImage.filename. fold (index_md dir).
  rewrite Hc. cbn [JS.await]. rewrite Hdata.
  by rewrite spread_other.
Qed.

(** X11. [Image] fails where [getPosts] fails to read: when the
    [index.md] of a listed directory cannot be read, [Image] of that
    directory is rejected with the reason of the read, and [getPosts] is
    rejected too. (A front matter that cannot be parsed is another matter:
    gray-matter remembers the texts it has seen, and what it answers for a
    text it threw on before is not what it answered the first time.) *)
Theorem Image_rejected_with_getPosts fs entries dir reason :
  readdir fs "./public/" = JS.Resolved entries →
  dir ∈ directories entries →
  readFile fs (index_md dir) = JS.Rejected reason →
  Image fs dir = JS.Rejected reason ∧
  (∃ reason', getPosts fs = JS.Rejected reason').
Proof.
  intros Hentries Hdir Hfails. split.
  - unfold OgImage.Image, OgImage.filename. fold (index_md dir).
    by rewrite Hfails.
  - destruct (getPosts fs) as [posts|reason'] eqn:Hget; [|by eexists].
    apply getPosts_Resolved in Hget as (entries' & unsorted & He & Hposts & _).
    assert (entries' = entries) as -> by congruence.
    apply list_elem_of_lookup in Hdir as [k Hk].
    destruct (Forall2_lookup_l _ _ _ _ _ Hposts Hk)
      as (post & _ & c & data & Hc & _).
    congruence.
Qed.

(** X12. The home page and the feed show the same posts in the same order:
    link by link, the link of the feed item is the address of the site
    followed by the [href] of the home page, and title and description are
    the title and the subtitle shown. *)
Theorem Home_and_feed_agree fs links feed :
  Home fs = JS.Resolved links →
  generateFeed fs = JS.Resolved feed →
  length links = length (Feed.items feed) ∧
  ∀ i link item,
    links !! i = Some link → Feed.items feed !! i = Some item →
    Item.link item = "https://sulhadin.com" +:+ Home.href link ∧
    Item.id item = "https://sulhadin.com" +:+ Home.href link ∧
    Item.title item = Home.PostTitle link ∧
    Item.description item = Home.PostSubtitle link.
Proof.
  unfold Home.Home. rewrite generateFeed_unfold.
  destruct (getPosts fs) as [posts|]; [|done]. cbn [JS.await].
  intros [= <-] [= <-]. simpl. split; [by rewrite !length_fmap|].
  intros i link item. rewrite !list_lookup_fmap.
  destruct (posts !! i) as [post|]; [|done]. by intros [= <-] [= <-].
Qed.
End Readers.

(** * The demos: [RegExp.escape] *)

Section RegExpEscape.
Import Components.

Lemma append_cons c s1 s2 : String c s1 +:+ s2 = String c (s1 +:+ s2).
Proof. reflexivity. Qed.

Lemma append_nil_r s : s +:+ "" = s.
Proof. induction s as [|c s IH]; [done|]. by rewrite append_cons, IH. Qed.

Lemma append_assoc s1 s2 s3 : (s1 +:+ s2) +:+ s3 = s1 +:+ (s2 +:+ s3).
Proof. induction s1 as [|c s1 IH]; [done|]. by rewrite !append_cons, IH. Qed.

Lemma length_append s1 s2 :
  String.length (s1 +:+ s2) = (String.length s1 + String.length s2)%nat.
Proof.
  induction s1 as [|c s1 IH]; [done|]. rewrite append_cons. simpl. by rewrite IH.
Qed.

Lemma replace_app pattern replacement s1 s2 :
  replace pattern replacement (s1 +:+ s2)
  = replace pattern replacement s1 +:+ replace pattern replacement s2.
Proof.
  induction s1 as [|c s1 IH]; [done|].
  rewrite append_cons. cbn [replace]. rewrite IH.
  destruct (pattern c); [|done]. by rewrite append_assoc.
Qed.

Lemma escape_character_passes c :
  replace (λ c, bool_decide (c = "/"%char)) (λ _, "\/")
    (replace (λ c, bool_decide (c = carriage_return)) (λ _, "\r")
       (replace (λ c, bool_decide (c = line_feed)) (λ _, "\n")
          (if bool_decide (c ∈ syntax_characters)
           then String "\" (String c EmptyString)
           else String c EmptyString)))
  = escape_character c.
Proof. by destruct c as [[] [] [] [] [] [] [] []]; vm_compute. Qed.

Lemma RegExp_escape_one_pass str :
  RegExp_escape str = replace (λ _, true) escape_character str.
Proof.
  unfold RegExp_escape.
  induction str as [|c rest IH]; [done|].
  cbn [replace]. rewrite <-IH, <-escape_character_passes.
  destruct (bool_decide (c ∈ syntax_characters)).
  - by rewrite !replace_app.
  - change (String c ?s) with (String c EmptyString +:+ s) at 1.
    by rewrite !replace_app.
Qed.

(** X13. The four passes of [RegExp.escape] do not get in each other's
    way: the result is the string with each character replaced on its own,
    a syntax character by a backslash and itself, a line feed, a carriage
    return and a slash by their two-character escapes, any other character
    by itself. Nothing a pass has written is escaped again by a later
    one. *)
Theorem RegExp_escape_character_by_character str :
  RegExp_escape str = replace (λ _, true) escape_character str.
Proof. apply RegExp_escape_one_pass. Qed.

Ltac each_character c := destruct c as [[] [] [] [] [] [] [] []].

(** A character that is escaped becomes a backslash and one character, one
    that is not stays as it is and is no backslash. *)
Lemma escape_character_spec c :
  if escaped c
  then ∃ x, escape_character c = String "\" (String x EmptyString)
  else escape_character c = String c EmptyString ∧ c ≠ "\"%char.
Proof. each_character c; vm_compute; by eauto. Qed.

Lemma escape_character_inj c1 c2 :
  escape_character c1 = escape_character c2 → c1 = c2.
Proof.
  intros H.
  set (decode := λ s : string,
         match s with
         | String "\" (String "n" EmptyString) => line_feed
         | String "\" (String "r" EmptyString) => carriage_return
         | String "\" (String x EmptyString) => x
         | String x _ => x
         | EmptyString => "000"%char
         end).
  assert (∀ c, decode (escape_character c) = c) as Hdecode.
  { intros c. by each_character c. }
  by rewrite <-(Hdecode c1), <-(Hdecode c2), H.
Qed.

(** No two escapes of a character start a string the same way unless they
    are the same. *)
Lemma escape_character_prefix c1 c2 s1 s2 :
  escape_character c1 +:+ s1 = escape_character c2 +:+ s2 →
  c1 = c2 ∧ s1 = s2.
Proof.
  pose proof (escape_character_spec c1) as H1.
  pose proof (escape_character_spec c2) as H2.
  destruct (escaped c1), (escaped c2).
  - destruct H1 as [x1 E1], H2 as [x2 E2]. rewrite E1, E2, !append_cons.
    intros [= -> Hs]. change (s1 = s2) in Hs. split; [|done].
    apply escape_character_inj. by rewrite E1, E2.
  - destruct H1 as [x1 ->], H2 as [-> Hc2]. rewrite !append_cons.
    by intros [= <- _].
  - destruct H1 as [-> Hc1], H2 as [x2 ->]. rewrite !append_cons.
    by intros [= -> _].
  - destruct H1 as [-> _], H2 as [-> _]. rewrite !append_cons.
    intros [= -> Hs]. by change (s1 = s2) in Hs.
Qed.

Lemma RegExp_escape_inj s1 s2 :
  RegExp_escape s1 = RegExp_escape s2 → s1 = s2.
Proof.
  rewrite !RegExp_escape_one_pass.
  revert s2. induction s1 as [|c1 s1 IH]; intros [|c2 s2]; cbn [replace].
  - done.
  - pose proof (escape_character_spec c2) as H2.
    destruct (escaped c2); [destruct H2 as [x ->]|destruct H2 as [-> _]]; done.
  - pose proof (escape_character_spec c1) as H1.
    destruct (escaped c1); [destruct H1 as [x ->]|destruct H1 as [-> _]]; done.
  - intros [-> H]%escape_character_prefix. f_equal. by apply IH.
Qed.

(** X14. [RegExp.escape] is injective: two search terms that differ have
    escapes that differ. *)
Theorem RegExp_escape_injective s1 s2 :
  s1 ≠ s2 → RegExp_escape s1 ≠ RegExp_escape s2.
Proof. intros Hne Heq. by apply Hne, RegExp_escape_inj. Qed.

Lemma length_escape_character c :
  String.length (escape_character c) = (1 + if escaped c then 1 else 0)%nat.
Proof. by each_character c. Qed.

Lemma length_escape str :
  String.length (replace (λ _, true) escape_character str)
  = (String.length str + count_escaped str)%nat.
Proof.
  induction str as [|c rest IH]; [done|].
  cbn [replace]. rewrite length_append, length_escape_character, IH.
  simpl. lia.
Qed.

Lemma RegExp_escape_fixed str :
  RegExp_escape str = str ↔ count_escaped str = 0%nat.
Proof.
  rewrite RegExp_escape_one_pass. split.
  - intros H. pose proof (length_escape str) as Hlen.
    rewrite H in Hlen. lia.
  - induction str as [|c rest IH]; [done|]. simpl.
    pose proof (escape_character_spec c) as Hc.
    destruct (escaped c); [done|]. destruct Hc as [-> _].
    intros Hrest. by rewrite append_cons, IH.
Qed.

(** X15. The escape of a string is longer than the string by one
    character for every character that is escaped; [RegExp.escape] returns
    a string as it is exactly when the string has none. *)
Theorem RegExp_escape_length str :
  String.length (RegExp_escape str)
  = (String.length str + count_escaped str)%nat ∧
  (RegExp_escape str = str ↔ count_escaped str = 0%nat).
Proof.
  split; [|apply RegExp_escape_fixed].
  rewrite RegExp_escape_one_pass. apply length_escape.
Qed.

Lemma count_escaped_append s1 s2 :
  count_escaped (s1 +:+ s2) = (count_escaped s1 + count_escaped s2)%nat.
Proof.
  induction s1 as [|c s1 IH]; [done|].
  rewrite append_cons. simpl. rewrite IH. lia.
Qed.

Lemma count_escaped_escape_character c :
  ((if escaped c then 1 else 0) ≤ count_escaped (escape_character c))%nat.
Proof. each_character c; vm_compute; lia. Qed.

(** X16. Escaping twice is not escaping once: the escape of an escape is
    the escape itself only for a string in which nothing is escaped. *)
Theorem RegExp_escape_twice str :
  RegExp_escape (RegExp_escape str) = RegExp_escape str ↔
  count_escaped str = 0%nat.
Proof.
  split.
  - intros H. apply RegExp_escape_fixed in H.
    rewrite RegExp_escape_one_pass in H.
    induction str as [|c rest IH]; [done|].
    cbn [replace] in H. rewrite count_escaped_append in H.
    pose proof (count_escaped_escape_character c). simpl.
    rewrite IH; lia.
  - intros H. apply RegExp_escape_fixed in H. by rewrite !H.
Qed.

Lemma list_ascii_of_append s1 s2 :
  String.list_ascii_of_string (s1 +:+ s2)
  = String.list_ascii_of_string s1 ++ String.list_ascii_of_string s2.
Proof.
  induction s1 as [|c s1 IH]; [done|].
  rewrite append_cons. simpl. by rewrite IH.
Qed.

Lemma escape_character_one_line c x :
  x ∈ String.list_ascii_of_string (escape_character c) →
  x ≠ line_feed ∧ x ≠ carriage_return.
Proof.
  each_character c; vm_compute;
    intros Hx; repeat (apply elem_of_cons in Hx as [->|Hx]);
    try (by apply elem_of_nil in Hx); done.
Qed.

Lemma escape_one_line str c :
  c ∈ String.list_ascii_of_string (RegExp_escape str) →
  c ≠ line_feed ∧ c ≠ carriage_return.
Proof.
  rewrite RegExp_escape_one_pass.
  induction str as [|c' rest IH]; cbn [replace].
  - by intros ?%elem_of_nil.
  - rewrite list_ascii_of_append.
    intros [Hc|Hc]%elem_of_app; [by eapply escape_character_one_line|by apply IH].
Qed.

(** X17. The escape of a string is one line: it has no line feed and no
    carriage return, whatever the string. *)
Theorem RegExp_escape_one_line str :
  (line_feed ∉ String.list_ascii_of_string (RegExp_escape str)) ∧
  (carriage_return ∉ String.list_ascii_of_string (RegExp_escape str)).
Proof.
  split; intros [Hlf Hcr]%escape_one_line; [by apply Hlf|by apply Hcr].
Qed.
End RegExpEscape.

(** * The demos: the class [Resource] *)

Section UsingFacts.
Import Components.Using.
Variable Date_now : nat → Z.
Variable toLocaleTimeString : nat → string.

#[local] Abbreviation addLog := (addLog toLocaleTimeString).
#[local] Abbreviation new := (new Date_now toLocaleTimeString).
#[local] Abbreviation use := (use toLocaleTimeString).
#[local] Abbreviation dispose := (dispose Date_now toLocaleTimeString).
#[local] Abbreviation dispose_all := (dispose_all Date_now toLocaleTimeString).

(** What [dispose] does to an object that is there: nothing when it is
    disposed, and otherwise one reading of the clock, one write and one
    entry in the log. *)
Lemma dispose_disposed this w resource :
  objects w !! this = Some resource → disposed resource = true →
  dispose this w = (Normal (), w).
Proof.
  intros Hthis Hdisposed. unfold Components.Using.dispose, bind, read.
  by rewrite Hthis, Hdisposed.
Qed.

Lemma dispose_live this w resource :
  objects w !! this = Some resource → disposed resource = false →
  dispose this w
  = (Normal (),
     {| objects :=
          <[this := {| name := name resource; dependsOn := dependsOn resource;
                       timestamp := timestamp resource; disposed := true |}]>
            (objects w);
        logs :=
          logs w ++
          [ {| time := toLocaleTimeString (log_writes w);
               message :=
                 disposed_mark +:+ " " +:+ name resource +:+ " disposed after "
                 +:+ Number_toString
                       (Date_now (clock_reads w) - timestamp resource)
                 +:+ "ms";
               type := "dispose" |} ];
        clock_reads := S (clock_reads w);
        log_writes := S (log_writes w) |}).
Proof.
  intros Hthis Hlive. unfold Components.Using.dispose, bind, read.
  by rewrite Hthis, Hlive.
Qed.

Lemma dispose_spec this w :
  is_Some (objects w !! this) →
  ∃ w',
    dispose this w = (Normal (), w') ∧
    keeps w w' ∧
    length (objects w') = length (objects w) ∧
    ∃ resource, objects w' !! this = Some resource ∧ disposed resource = true.
Proof.
  intros [resource Hthis]. destruct (disposed resource) eqn:Hdisposed.
  - exists w. rewrite (dispose_disposed _ _ _ Hthis Hdisposed).
    split; [done|]. split; [|by eauto]. split; [by eauto 10|done].
  - eexists. rewrite (dispose_live _ _ _ Hthis Hdisposed).
    split; [done|]. simpl.
    pose proof (lookup_lt_Some _ _ _ Hthis) as Hlt.
    split; [|split; [by rewrite length_insert|]].
    + split; [|by apply prefix_app_r].
      intros l r Hl. simpl. destruct (decide (l = this)) as [->|Hne].
      * rewrite list_lookup_insert_eq by done. eexists. split; [done|].
        simpl. by simplify_eq.
      * rewrite list_lookup_insert_ne by done. by eauto 10.
    + eexists. by rewrite list_lookup_insert_eq.
Qed.

(** X18. Disposing twice is disposing once: the second call returns at
    once, it neither reads the clock nor writes to the log. *)
Theorem dispose_twice this w :
  (let* _ := dispose this in dispose this) w = dispose this w.
Proof.
  unfold bind at 1.
  destruct (objects w !! this) as [resource|] eqn:Hthis.
  - destruct (dispose_spec this w) as (w' & Hw' & _ & _ & r' & Hr' & Hd);
      [by eauto|].
    rewrite Hw'. by apply dispose_disposed with r'.
  - unfold Components.Using.dispose, bind, read. by rewrite Hthis.
Qed.

(** X19. A resource that was disposed cannot be used: [use] throws
    "<name> already disposed!" and leaves the log and the objects as
    [dispose] left them. *)
Theorem use_after_dispose this w resource :
  objects w !! this = Some resource →
  (let* _ := dispose this in use this) w
  = (Throw (name resource +:+ " already disposed!"), (dispose this w).2).
Proof.
  intros Hthis. unfold bind at 1.
  destruct (dispose_spec this w) as (w' & Hw' & [Hkeeps _] & _ & r' & Hr' & Hd);
    [by eauto|].
  rewrite Hw'. simpl.
  destruct (Hkeeps this resource Hthis) as (r'' & Hr'' & Hname & _).
  assert (r'' = r') as -> by congruence.
  unfold Components.Using.use, bind, read. by rewrite Hr', Hd, Hname.
Qed.

Lemma keeps_refl w : keeps w w.
Proof. split; [by eauto 10|done]. Qed.

Lemma keeps_trans w1 w2 w3 : keeps w1 w2 → keeps w2 w3 → keeps w1 w3.
Proof.
  intros [H12 P12] [H23 P23]. split; [|by etrans].
  intros this r Hr.
  destruct (H12 this r Hr) as (r' & Hr' & Hn & Hdep & Ht & Hd).
  destruct (H23 this r' Hr') as (r'' & Hr'' & Hn' & Hdep' & Ht' & Hd').
  exists r''. split; [done|]. repeat split; try congruence. auto.
Qed.

Lemma dispose_keeps this w : keeps w (dispose this w).2.
Proof.
  destruct (objects w !! this) as [resource|] eqn:Hthis.
  - destruct (dispose_spec this w) as (w' & -> & Hkeeps & _); by eauto.
  - unfold Components.Using.dispose, bind, read. rewrite Hthis.
    apply keeps_refl.
Qed.

Lemma dispose_all_keeps fuel resources w :
  keeps w (dispose_all fuel resources w).2.
Proof.
  revert resources w. induction fuel as [|fuel IH]; intros resources w.
  { apply keeps_refl. }
  cbn [Components.Using.dispose_all]. case_decide; [|apply keeps_refl].
  destruct (last resources) as [last_one|]; [|apply keeps_refl].
  unfold bind. pose proof (dispose_keeps last_one w) as Hfirst.
  destruct (dispose last_one w) as [[[]|message] w']; [|done].
  eapply keeps_trans; [exact Hfirst|apply IH].
Qed.

(** X20. No method of [Resource] brings a resource back: through [new],
    [use], [Symbol.dispose] and the loop that disposes an array, every
    object stays in its place with its name and timestamp, a disposed
    resource stays disposed, and the log only grows. *)
Theorem Resource_methods_keep name dependsOn this fuel resources w :
  keeps w (new name dependsOn w).2 ∧
  keeps w (use this w).2 ∧
  keeps w (dispose this w).2 ∧
  keeps w (dispose_all fuel resources w).2.
Proof.
  split; [|split; [|split]].
  - unfold Components.Using.new, bind, now, allocate, Components.Using.addLog.
    simpl. split; [|by apply prefix_app_r].
    intros l r Hl. simpl. exists r. split; [|done].
    by apply lookup_app_l_Some.
  - unfold Components.Using.use, bind, read.
    destruct (objects w !! this) as [resource|]; [|apply keeps_refl].
    destruct (disposed resource); simpl; [apply keeps_refl|].
    split; [by eauto 10|by apply prefix_app_r].
  - apply dispose_keeps.
  - apply dispose_all_keeps.
Qed.

Lemma dispose_all_snoc resources this w :
  dispose_all (S (length resources)) (resources ++ [this]) w
  = (let* _ := dispose this in dispose_all (length resources) resources) w.
Proof.
  cbn [Components.Using.dispose_all].
  rewrite length_app, last_snoc. simpl.
  rewrite decide_True by lia.
  replace (length resources + 1 - 1)%nat with (length resources) by lia.
  by rewrite take_app_length.
Qed.

(** X21. The loop disposes the resources of the array one by one, the last
    one first, and leaves the array empty; after it every resource of the
    array is disposed. *)
Theorem dispose_all_last_first resources w :
  Forall (λ this, is_Some (objects w !! this)) resources →
  dispose_all (length resources) resources w
  = (Normal [], foldl (λ w this, (dispose this w).2) w (reverse resources)) ∧
  Forall (λ this, ∃ resource,
            objects (dispose_all (length resources) resources w).2 !! this
            = Some resource ∧ disposed resource = true) resources.
Proof.
  revert w. induction resources as [|this resources IH] using rev_ind;
    intros w Hvalid.
  { by split. }
  apply Forall_app in Hvalid as [Hvalid Hthis].
  apply Forall_cons in Hthis as [Hthis _].
  rewrite length_app, Nat.add_1_r, dispose_all_snoc, reverse_snoc.
  unfold bind. simpl.
  destruct (dispose_spec this w Hthis)
    as (w' & Hw' & [Hkeeps _] & Hlen & r & Hr & Hd).
  rewrite Hw'. simpl.
  assert (Forall (λ this, is_Some (objects w' !! this)) resources) as Hvalid'.
  { eapply Forall_impl; [exact Hvalid|]. intros l [rl Hl].
    destruct (Hkeeps l rl Hl) as (rl' & Hrl' & _). by eauto. }
  destruct (IH w' Hvalid') as [Hrun Hall]. split; [done|].
  apply Forall_app. split; [done|]. apply Forall_singleton.
  destruct (dispose_all_keeps (length resources) resources w') as [Hkeeps' _].
  destruct (Hkeeps' this r Hr) as (r' & Hr' & _ & _ & _ & Hd').
  exists r'. split; [done|]. by apply Hd'.
Qed.

(** X22. The log tells the order: for an array of different resources none
    of which is disposed yet, the loop appends one entry of type "dispose"
    per resource, each with the name of its resource, the entry of the last
    resource of the array first. *)
Theorem dispose_all_log resources w :
  NoDup resources →
  Forall (λ this, ∃ resource,
            objects w !! this = Some resource ∧ disposed resource = false)
         resources →
  ∃ entries,
    logs (dispose_all (length resources) resources w).2 = logs w ++ entries ∧
    Forall2
      (λ this entry, ∃ resource duration,
         objects w !! this = Some resource ∧
         type entry = "dispose" ∧
         message entry
         = disposed_mark +:+ " " +:+ name resource +:+ " disposed after "
           +:+ Number_toString duration +:+ "ms")
      (reverse resources) entries.
Proof.
  revert w. induction resources as [|this resources IH] using rev_ind;
    intros w Hnodup Hlive.
  { exists []. split; [by rewrite app_nil_r|constructor]. }
  apply NoDup_app in Hnodup as (Hnodup & Hfresh & _).
  apply Forall_app in Hlive as [Hlive Hthis].
  apply Forall_cons in Hthis as [(resource & Hthis & Hnot) _].
  rewrite length_app, Nat.add_1_r, dispose_all_snoc, reverse_snoc.
  unfold bind. rewrite (dispose_live _ _ _ Hthis Hnot).
  set (w' := {| objects := _ |}).
  assert (∀ l, l ∈ resources → objects w' !! l = objects w !! l) as Hsame.
  { intros l Hl. simpl. apply list_lookup_insert_ne.
    intros <-. apply (Hfresh this); [done|by left]. }
  destruct (IH w' Hnodup) as (entries & Hlogs & Hentries).
  { rewrite Forall_forall in Hlive. apply Forall_forall. intros l Hl.
    rewrite Hsame by done. by apply Hlive. }
  eexists (_ :: entries). split.
  { rewrite Hlogs. simpl. by rewrite <-app_assoc. }
  constructor; [by exists resource; eexists|].
  apply Forall2_same_length_lookup in Hentries as [Hlen Hentries].
  apply Forall2_same_length_lookup. split; [done|].
  intros i l entry Hl Hentry.
  destruct (Hentries i l entry Hl Hentry) as (r & d & Hr & Htype & Hmessage).
  exists r, d. split; [|done]. rewrite <-Hsame; [done|].
  apply list_elem_of_lookup_2 in Hl. by rewrite elem_of_reverse in Hl.
Qed.
End UsingFacts.

(** * The demos: [Array.fromAsync] *)

Section FromAsyncFacts.
Import Components.FromAsync.
Context {V : Type}.
Implicit Types (mapFn : option (V → nat → JS.promise V)).

(** As long as [index] is the length of [result], [result[index] = value]
    is a push. *)
Lemma array_set_length (result : list (option V)) value :
  array_set result (length result) value = result ++ [Some value].
Proof.
  unfold array_set. rewrite decide_False by lia.
  by rewrite Nat.sub_diag.
Qed.

Lemma for_await_Resolved mapFn asyncIterable result result' :
  for_await mapFn asyncIterable result (length result) = JS.Resolved result' ↔
  ∃ values mapped,
    asyncIterable = JS.Resolved <$> values ∧
    result' = result ++ (Some <$> mapped) ∧
    length mapped = length values ∧
    ∀ i value, values !! i = Some value →
      ∃ m, mapped !! i = Some m ∧
           mappedValue mapFn value (length result + i) = JS.Resolved m.
Proof.
  revert result. induction asyncIterable as [|step rest IH]; intros result.
  - cbn [for_await]. split.
    + intros [= <-]. exists [], []. by rewrite app_nil_r.
    + intros (values & mapped & Hvalues & -> & Hlen & _).
      symmetry in Hvalues. apply fmap_nil_inv in Hvalues as ->.
      destruct mapped; [|done]. by rewrite app_nil_r.
  - cbn [for_await]. split.
    + destruct step as [value|reason]; cbn [JS.await]; [|done].
      destruct (mappedValue mapFn value (length result)) as [m|reason] eqn:Hm;
        cbn [JS.await]; [|done].
      rewrite array_set_length.
      replace (S (length result)) with (length (result ++ [Some m]))
        by (rewrite length_app; simpl; lia).
      intros (values & mapped & -> & -> & Hlen & Hmapped)%IH.
      exists (value :: values), (m :: mapped).
      split; [done|]. split; [by rewrite <-app_assoc|].
      split; [by simpl; rewrite Hlen|].
      intros [|i] v; simpl.
      * intros [= <-]. exists m. by rewrite Nat.add_0_r.
      * intros Hv. destruct (Hmapped i v Hv) as (m' & Hm' & Hcall).
        exists m'. split; [done|].
        rewrite length_app in Hcall. simpl in Hcall.
        by replace (length result + S i)%nat
          with (length result + 1 + i)%nat by lia.
    + intros (values & mapped & Hvalues & -> & Hlen & Hmapped).
      destruct values as [|value values]; [done|].
      destruct mapped as [|m mapped]; [done|].
      injection Hvalues as -> ->. cbn [JS.await].
      destruct (Hmapped 0%nat value eq_refl) as (m' & [= <-] & Hm).
      rewrite Nat.add_0_r in Hm. rewrite Hm. cbn [JS.await].
      rewrite array_set_length.
      replace (S (length result)) with (length (result ++ [Some m]))
        by (rewrite length_app; simpl; lia).
      apply IH. exists values, mapped.
      split; [done|]. split; [by rewrite <-app_assoc|].
      split; [by simpl in Hlen; lia|].
      intros i v Hv. destruct (Hmapped (S i) v Hv) as (m' & Hm' & Hcall).
      exists m'. split; [done|].
      rewrite length_app. simpl.
      by replace (length result + 1 + i)%nat
        with (length result + S i)%nat by lia.
Qed.

(** X23. [Array.fromAsync] resolves exactly when every step of the iterable
    resolves and [mapFn] resolves on every value; the array it resolves to
    has no hole and as many elements as the iterable gave values, and its
    element [i] is [mapFn] of value [i] and the index [i] (the value itself
    without a [mapFn]). *)
Theorem Array_fromAsync_resolves mapFn asyncIterable result :
  Array_fromAsync asyncIterable mapFn = JS.Resolved result ↔
  ∃ values mapped,
    asyncIterable = JS.Resolved <$> values ∧
    result = Some <$> mapped ∧
    length mapped = length values ∧
    ∀ i value, values !! i = Some value →
      ∃ m, mapped !! i = Some m ∧ mappedValue mapFn value i = JS.Resolved m.
Proof.
  unfold Array_fromAsync.
  by rewrite (for_await_Resolved mapFn asyncIterable [] result).
Qed.

Lemma for_await_Rejected mapFn values step rest reason result index :
  (∀ i value, values !! i = Some value →
     ∃ m, mappedValue mapFn value (index + i) = JS.Resolved m) →
  (step = JS.Rejected reason ∨
   ∃ value, step = JS.Resolved value ∧
            mappedValue mapFn value (index + length values)
            = JS.Rejected reason) →
  for_await mapFn ((JS.Resolved <$> values) ++ step :: rest) result index
  = JS.Rejected reason.
Proof.
  revert result index.
  induction values as [|value values IH]; intros result index Hvalues Hstep.
  - simpl. destruct Hstep as [->|(value & -> & Hm)]; [done|].
    simpl in Hm. rewrite Nat.add_0_r in Hm. cbn [JS.await]. by rewrite Hm.
  - simpl. destruct (Hvalues 0%nat value eq_refl) as [m Hm].
    rewrite Nat.add_0_r in Hm. rewrite Hm. cbn [JS.await].
    apply IH.
    + intros i v Hv. destruct (Hvalues (S i) v Hv) as [m' Hm'].
      exists m'. by replace (S index + i)%nat with (index + S i)%nat by lia.
    + destruct Hstep as [->|(v & -> & Hv)]; [by left|right].
      exists v. split; [done|]. simpl in Hv.
      by replace (S index + length values)%nat
        with (index + S (length values))%nat by lia.
Qed.

(** X24. [Array.fromAsync] is rejected with the reason of the first step
    that is rejected, or of the first call of [mapFn] that is, whatever the
    iterable would have given after it; none of the values collected before
    is returned. *)
Theorem Array_fromAsync_rejects mapFn values step rest reason :
  (∀ i value, values !! i = Some value →
     ∃ m, mappedValue mapFn value i = JS.Resolved m) →
  (step = JS.Rejected reason ∨
   ∃ value, step = JS.Resolved value ∧
            mappedValue mapFn value (length values) = JS.Rejected reason) →
  Array_fromAsync ((JS.Resolved <$> values) ++ step :: rest) mapFn
  = JS.Rejected reason.
Proof.
  intros Hvalues Hstep. unfold Array_fromAsync.
  by apply for_await_Rejected.
Qed.
End FromAsyncFacts.

(** ** The readers and the demos, at work *)

Example toLocaleDateString_long :
  Reference.toLocaleDateString (Reference.Date_parse "2025-01-19")
  = "January 19, 2025" ∧
  Reference.toLocaleDateString (Reference.Date_parse "2024-02-29")
  = "February 29, 2024" ∧
  Reference.toLocaleDateString (Reference.Date_parse "soon") = "Invalid Date".
Proof. repeat split; evaluate. Qed.

Lemma Image_of_listed_post_witness :
  ∃ post,
    post ∈ [Reference.onboarding; Reference.code_review;
            Reference.component_architecture] ∧
    post_of_directory Reference.matter Reference.blog
      "code-review-feedback-that-helps" post ∧
    OgImage.Image Reference.matter Reference.ImageResponse
      Reference.generatePostImage Reference.blog
      "code-review-feedback-that-helps"
    = Reference.generatePostImage (post !! "title").
Proof.
  apply (Image_of_listed_post Reference.Date_parse Reference.matter
           Reference.ImageResponse Reference.generatePostImage
           Reference.blog Reference.blog_entries _
           "code-review-feedback-that-helps" eq_refl blog_posts).
  vm_compute. left.
Defined.

Lemma Image_rejected_with_getPosts_witness :
  OgImage.Image Reference.matter Reference.ImageResponse
    Reference.generatePostImage Reference.blog_with_broken_and_missing_post
    Reference.truthy_and_falsy
  = JS.Rejected (JS.ENOENT (index_md Reference.truthy_and_falsy)) ∧
  (∃ reason,
     run_getPosts Reference.blog_with_broken_and_missing_post
     = JS.Rejected reason).
Proof.
  apply (Image_rejected_with_getPosts Reference.Date_parse Reference.matter
           Reference.ImageResponse Reference.generatePostImage
           Reference.blog_with_broken_and_missing_post
           (Reference.dir "broken"
            :: Reference.blog_entries
               ++ [Reference.dir Reference.truthy_and_falsy])
           Reference.truthy_and_falsy).
  - reflexivity.
  - vm_compute. do 4 right. left.
  - evaluate.
Defined.

Lemma blog_home :
  Home.Home Reference.Date_parse Reference.matter Reference.toLocaleDateString
    Reference.blog
  = JS.Resolved
      (Home.link_of Reference.Date_parse Reference.toLocaleDateString
         <$> [Reference.onboarding; Reference.code_review;
              Reference.component_architecture]).
Proof. evaluate. Qed.

Example blog_home_first_link :
  Home.link_of Reference.Date_parse Reference.toLocaleDateString
    Reference.onboarding
  = {| Home.key := Some "onboarding-developers-first-week";
       Home.href := "/onboarding-developers-first-week/";
       Home.PostTitle :=
         Some "Onboarding Developers - The First Week That Makes or Breaks Them";
       Home.PostMeta := "May 25, 2025";
       Home.PostSubtitle := Reference.onboarding !! "spoiler" |}.
Proof. evaluate. Qed.

Lemma Home_and_feed_agree_witness :
  Item.link (item_of Reference.Date_parse Reference.onboarding)
  = "https://sulhadin.com"
    +:+ Home.href (Home.link_of Reference.Date_parse
                     Reference.toLocaleDateString Reference.onboarding) ∧
  Item.id (item_of Reference.Date_parse Reference.onboarding)
  = "https://sulhadin.com"
    +:+ Home.href (Home.link_of Reference.Date_parse
                     Reference.toLocaleDateString Reference.onboarding) ∧
  Item.title (item_of Reference.Date_parse Reference.onboarding)
  = Home.PostTitle (Home.link_of Reference.Date_parse
                      Reference.toLocaleDateString Reference.onboarding) ∧
  Item.description (item_of Reference.Date_parse Reference.onboarding)
  = Home.PostSubtitle (Home.link_of Reference.Date_parse
                         Reference.toLocaleDateString Reference.onboarding).
Proof.
  apply (proj2 (Home_and_feed_agree Reference.Date_parse Reference.matter
                  Reference.toLocaleDateString Reference.blog _ _
                  blog_home blog_feed) 0%nat); reflexivity.
Defined.

(** The search terms the demo offers. *)
Example RegExp_escape_presets :
  Components.RegExp_escape "$49.99" = "\$49\.99" ∧
  Components.RegExp_escape "user@example.com" = "user@example\.com" ∧
  Components.RegExp_escape "(a + b)" = "\(a \+ b\)" ∧
  Components.RegExp_escape "C:\Users" = "C:\\Users" ∧
  Components.RegExp_escape "[1, 2, 3]" = "\[1, 2, 3\]".
Proof. repeat split; evaluate. Qed.

Example RegExp_escape_lines :
  Components.RegExp_escape
    (String "a" (String Components.line_feed (String "/" "b")))
  = "a\n\/b".
Proof. evaluate. Qed.

Lemma RegExp_escape_injective_witness :
  Components.RegExp_escape "a.c" ≠ Components.RegExp_escape "abc".
Proof.
  apply (RegExp_escape_injective "a.c" "abc"). discriminate.
Defined.

Example acquire_three_log :
  Components.Using.message <$> Components.Using.logs Reference.three_acquired
  = [Components.Using.acquired_mark +:+ " Database acquired";
     Components.Using.acquired_mark +:+ " Cache (depends on DB) acquired";
     Components.Using.acquired_mark +:+ " Session (depends on Cache) acquired"].
Proof. evaluate. Qed.

Example dispose_three_log :
  Components.Using.message
  <$> drop 3 (Components.Using.logs
                (Components.Using.dispose_all Reference.Date_now
                   Reference.toLocaleTimeString 3 [0; 1; 2]%nat
                   Reference.three_acquired).2)
  = [Components.Using.disposed_mark
     +:+ " Session (depends on Cache) disposed after 500ms";
     Components.Using.disposed_mark
     +:+ " Cache (depends on DB) disposed after 1500ms";
     Components.Using.disposed_mark +:+ " Database disposed after 2500ms"].
Proof. evaluate. Qed.

Lemma use_after_dispose_witness :
  Components.Using.bind
    (Components.Using.dispose Reference.Date_now Reference.toLocaleTimeString
       0%nat)
    (λ _, Components.Using.use Reference.toLocaleTimeString 0%nat)
    Reference.three_acquired
  = (Components.Using.Throw "Database already disposed!",
     (Components.Using.dispose Reference.Date_now Reference.toLocaleTimeString
        0%nat Reference.three_acquired).2).
Proof.
  exact (use_after_dispose Reference.Date_now Reference.toLocaleTimeString
           0%nat Reference.three_acquired
           {| Components.Using.name := "Database";
              Components.Using.dependsOn := None;
              Components.Using.timestamp := 1700000000000;
              Components.Using.disposed := false |} eq_refl).
Defined.

Lemma three_acquired_live :
  Forall (λ this, ∃ resource,
            Components.Using.objects Reference.three_acquired !! this
            = Some resource ∧
            Components.Using.disposed resource = false)
         [0; 1; 2]%nat.
Proof. repeat constructor; eexists; split; reflexivity. Qed.

Lemma dispose_all_last_first_witness :
  Components.Using.dispose_all Reference.Date_now Reference.toLocaleTimeString
    3 [0; 1; 2]%nat Reference.three_acquired
  = (Components.Using.Normal [],
     foldl (λ w this,
              (Components.Using.dispose Reference.Date_now
                 Reference.toLocaleTimeString this w).2)
       Reference.three_acquired [2; 1; 0]%nat) ∧
  Forall (λ this, ∃ resource,
            Components.Using.objects
              (Components.Using.dispose_all Reference.Date_now
                 Reference.toLocaleTimeString 3 [0; 1; 2]%nat
                 Reference.three_acquired).2 !! this
            = Some resource ∧
            Components.Using.disposed resource = true)
         [0; 1; 2]%nat.
Proof.
  apply (dispose_all_last_first Reference.Date_now Reference.toLocaleTimeString
           [0; 1; 2]%nat Reference.three_acquired).
  repeat constructor; eexists; reflexivity.
Defined.

Lemma dispose_all_log_witness :
  ∃ entries,
    Components.Using.logs
      (Components.Using.dispose_all Reference.Date_now
         Reference.toLocaleTimeString 3 [0; 1; 2]%nat
         Reference.three_acquired).2
    = Components.Using.logs Reference.three_acquired ++ entries ∧
    Forall2
      (λ this entry, ∃ resource duration,
         Components.Using.objects Reference.three_acquired !! this
         = Some resource ∧
         Components.Using.type entry = "dispose" ∧
         Components.Using.message entry
         = Components.Using.disposed_mark +:+ " "
           +:+ Components.Using.name resource +:+ " disposed after "
           +:+ Components.Using.Number_toString duration +:+ "ms")
      [2; 1; 0]%nat entries.
Proof.
  apply (dispose_all_log Reference.Date_now Reference.toLocaleTimeString
           [0; 1; 2]%nat Reference.three_acquired).
  - apply (bool_decide_unpack _). by vm_compute.
  - exact three_acquired_live.
Defined.

Example array_set_past_the_end :
  Components.FromAsync.array_set [Some 1] 3 7 = [Some 1; None; None; Some 7] ∧
  Components.FromAsync.array_set [Some 1; Some 2] 0 7 = [Some 7; Some 2].
Proof. split; reflexivity. Qed.

Example Array_fromAsync_countdown :
  Components.FromAsync.Array_fromAsync Reference.countdown_3 None
  = JS.Resolved [Some 3; Some 2; Some 1] ∧
  Components.FromAsync.Array_fromAsync Reference.countdown_3 Reference.twice
  = JS.Resolved [Some 6; Some 4; Some 2].
Proof. split; reflexivity. Qed.

Lemma Array_fromAsync_rejects_witness :
  Components.FromAsync.Array_fromAsync Reference.countdown_interrupted
    Reference.twice
  = JS.Rejected (JS.TypeError "interrupted").
Proof.
  apply (Array_fromAsync_rejects Reference.twice [3]
           (JS.Rejected (JS.TypeError "interrupted")) [JS.Resolved 1]).
  - intros [|i] value; [|done]. intros [= <-]. by eexists.
  - by left.
Defined.
